(** * gps4photos: a shallow embedding of [gps.py]

    The module matches photos against a table of GPS samples by capture
    time.  It is embedded here function by function: Python floats are
    IEEE-754 binary64 values ([PrimFloat.float]), dictionaries are [gmap]s,
    module globals live in a [world] record that is threaded through a small
    state-and-exception monad, and every call into an outside collaborator
    (exiftool, reverse_geocoder, the console, the CSV writer) is recorded in a
    trace. *)

From Stdlib Require Import ZArith Floats.
From stdpp Require Import base option list gmap strings.

Local Open Scope string_scope.
Local Open Scope Z_scope.

(** ** Python values *)

(** The values that flow through the program: CSV cells are strings, the
    JSON produced by exiftool holds strings, integers and floats. *)
Inductive pyval :=
| PStr (s : string)
| PInt (z : Z)
| PFloat (f : float).

(** [bool(v)]: the empty string and the numbers equal to zero are falsy.
    A NaN is truthy ([nan != 0]). *)
Definition truthy (v : pyval) : bool :=
  match v with
  | PStr s => negb (String.eqb s "")
  | PInt z => negb (z =? 0)
  | PFloat f => negb (f =? 0)%float
  end.

(** [bool(x)] for a float. *)
Definition truthy_float (f : float) : bool := negb (f =? 0)%float.

(** [f == z] for a float and an int: Python compares the exact values. *)
Definition float_eq_int (f : float) (z : Z) : bool :=
  match Prim2SF f with
  | S754_zero _ => z =? 0
  | S754_finite s m e =>
      let v := if s then Z.neg m else Z.pos m in
      if 0 <=? e then z =? v * 2 ^ e
      else (v mod 2 ^ (- e) =? 0) && (z =? v / 2 ^ (- e))
  | _ => false
  end.

(** [a == b]. *)
Definition py_eqb (a b : pyval) : bool :=
  match a, b with
  | PStr s, PStr t => String.eqb s t
  | PInt x, PInt y => x =? y
  | PFloat f, PFloat g => (f =? g)%float
  | PInt x, PFloat g => float_eq_int g x
  | PFloat f, PInt y => float_eq_int f y
  | _, _ => false
  end.

(** A row of [GPS_TABLE], and the non-empty tuple returned by
    [read_photo_gps]: (timestamp, latitude, longitude, altitude). *)
Definition row : Type := float * pyval * pyval * pyval.

Definition row0 (r : row) : float := r.1.1.1.
Definition row1 (r : row) : pyval := r.1.1.2.
Definition row2 (r : row) : pyval := r.1.2.
Definition row3 (r : row) : pyval := r.2.

(** Tuple equality, as used by the membership test of a [set]: the
    components are compared with [==].  Rows built from different reads never
    share objects, so the identity shortcut of CPython does not apply. *)
Definition row_eqb (a b : row) : bool :=
  (row0 a =? row0 b)%float && py_eqb (row1 a) (row1 b)
  && py_eqb (row2 a) (row2 b) && py_eqb (row3 a) (row3 b).

(** [set.add]: an element equal to a member is dropped, the member stays. *)
Definition set_add (acc : list row) (x : row) : list row :=
  if existsb (fun y => row_eqb y x) acc then acc else acc ++ [x].

(** The members of [set(l)], in insertion order. *)
Definition set_members (l : list row) : list row := fold_left set_add l [].

(** The float nearest to an int (ties to even). *)
Definition float_of_int (z : Z) : float := SF2Prim (binary_normalize prec emax z 0 false).

(** [float(v)]: [None] is the [ValueError] (or, for a huge int, the
    [OverflowError]) of Python.  Parsing a string is the runtime's business
    and is handed in as [parse]. *)
Definition py_float (parse : string → option float) (v : pyval) : option float :=
  match v with
  | PStr s => parse s
  | PInt z => let f := float_of_int z in if is_infinity f then None else Some f
  | PFloat f => Some f
  end.

(** ** String helpers: [str.endswith] and [in] *)

Definition endswith (s suffix : string) : bool :=
  let n := String.length s in
  let k := String.length suffix in
  (k <=? n)%nat && String.eqb (String.substring (n - k) k s) suffix.

Fixpoint str_contains (needle s : string) : bool :=
  String.prefix needle s
  || match s with
     | EmptyString => false
     | String _ s' => str_contains needle s'
     end.

(** ** Module state, exceptions and effects *)

Inductive exn :=
| IndexError | ValueError | TypeError | AttributeError | OSError
| ExifToolError | GeocoderError | QueueEmpty.

(** What [click.secho] puts on the console; the text is kept symbolic, one
    constructor per message of the source. *)
Inductive message :=
| MsgCsvError (e : exn)
| MsgExif (photo_path : string) (timestamp : float) (lat lon : pyval)
| MsgExifFailed (photo_path : string)
| MsgTimeDiff (photo_path : string) (min_diff timestamp : float)
| MsgMatch (photo_path : string) (timestamp : float) (lat lon : pyval)
| MsgAddress (photo_path : string) (address : string)
| MsgDone (photo_path : string)
| MsgUnsupported (photo_path : string).

(** Observable effects, in program order: a line of [click.secho], the line
    of [print(e)], and the calls into the collaborators. *)
Inductive event :=
| Secho (m : message)
| Print (e : exn)
| RgSearch (lat lon : pyval)
| SetTags (photo_path : string) (tags : gmap string pyval) (params : list string)
| WriteRow (gps_csv_path : string) (r : row)
| ThreadException (e : exn).

(** [GPS_TABLE] starts as a list and is rebound to a set by
    [load_gps_csv] and [write_gps_csv]; the list held by [TSet] is the
    iteration order of that set. *)
Inductive table :=
| TList (l : list row)
| TSet (l : list row).

Definition rows_of (t : table) : list row :=
  match t with TList l | TSet l => l end.

(** The module globals ([PRINT_LOCK] only serialises console output and is
    not represented), the task counter of [PHOTO_QUEUE] and the trace. *)
Record world := mkWorld {
  GPS_TABLE : table;
  PHOTO_QUEUE : list string;
  unfinished_tasks : nat;
  OVERWRITE : bool;
  trace : list event
}.

Definition set_GPS_TABLE (t : table) (w : world) : world :=
  mkWorld t (PHOTO_QUEUE w) (unfinished_tasks w) (OVERWRITE w) (trace w).
Definition set_PHOTO_QUEUE (q : list string) (n : nat) (w : world) : world :=
  mkWorld (GPS_TABLE w) q n (OVERWRITE w) (trace w).
Definition add_event (e : event) (w : world) : world :=
  mkWorld (GPS_TABLE w) (PHOTO_QUEUE w) (unfinished_tasks w) (OVERWRITE w) (trace w ++ [e]).

(** The state of the module at import time. *)
Definition initial_world : world := mkWorld (TList []) [] 0 false [].

(** A call returns, raises, or never returns. *)
Inductive outcome (A : Type) :=
| Ok (a : A)
| Raise (e : exn)
| Hang.
Arguments Ok {A} a.
Arguments Raise {A} e.
Arguments Hang {A}.

Definition M (A : Type) : Type := world → outcome A * world.

Definition ret {A} (a : A) : M A := λ w, (Ok a, w).
Definition raise {A} (e : exn) : M A := λ w, (Raise e, w).
Definition bind {A B} (m : M A) (k : A → M B) : M B :=
  λ w, match m w with
       | (Ok a, w') => k a w'
       | (Raise e, w') => (Raise e, w')
       | (Hang, w') => (Hang, w')
       end.

Notation "'let*' x ':=' c 'in' k" := (bind c (λ x, k))
  (at level 10, x pattern, c at level 100, k at level 200).
Notation "c ';;;' k" := (bind c (λ _, k))
  (at level 100, k at level 200, right associativity).

Definition emit (e : event) : M unit := λ w, (Ok tt, add_event e w).
Definition secho (m : message) : M unit := emit (Secho m).

(** [try: m  except Exception as e: h e] *)
Definition try_except {A} (m : M A) (h : exn → M A) : M A :=
  λ w, match m w with
       | (Raise e, w') => h e w'
       | r => r
       end.

(** [try: m  finally: f] *)
Definition try_finally {A} (m : M A) (f : M unit) : M A :=
  λ w, match m w with
       | (Ok a, w') => (f ;;; ret a) w'
       | (Raise e, w') => (f ;;; raise e) w'
       | (Hang, w') => (Hang, w')
       end.

(** [for x in l: body x] *)
Fixpoint for_each {A} (l : list A) (body : A → M unit) : M unit :=
  match l with
  | [] => ret tt
  | x :: l' => body x ;;; for_each l' body
  end.

Definition of_option {A} (e : exn) (o : option A) : M A :=
  match o with Some a => ret a | None => raise e end.

(** ** The runtime and the collaborators

    What the program obtains from outside its own code: the Python runtime
    ([float], [str.lower], [datetime], the iteration order of a [set]), the
    file system, exiftool and reverse_geocoder.  A failing call is [None] or
    [false]; every call returns or fails.  Where the program lets such a
    failure through, the exception is one fixed value per collaborator and
    stands for whatever that collaborator raises ([datetime.fromtimestamp],
    for one, raises [OverflowError], [ValueError] or [OSError]). *)
Record geo := mkGeo { cc : string; name : string; admin1 : string }.

Class Platform := {
  (** [float(s)] for a string *)
  float_of_str : string → option float;
  (** [s.lower()] *)
  str_lower : string → string;
  (** [datetime.strptime(s, "%Y:%m:%d %H:%M:%S").timestamp()] *)
  strptime_timestamp : string → option float;
  (** whether [datetime.fromtimestamp(t)] returns *)
  fromtimestamp : float → bool;
  (** the iteration order of a set with the given members *)
  set_iter : list row → list row;
  set_iter_perm : ∀ l, set_iter l ≡ₚ l;
  (** [os.path.isfile], [os.path.isdir], and the joined paths of the
      files [os.walk] finds *)
  isfile : string → bool;
  isdir : string → bool;
  walk_files : string → list string;
  (** the rows [csv.reader] yields, up to the end of the file, for a file
      opened for reading; [None] when [open] fails.  A reader that raises in
      the middle of a file is not represented. *)
  csv_reader : string → option (list (list string));
  (** whether [open(path, "a")] succeeds *)
  open_append : string → bool;
  (** [ExifToolHelper.get_metadata(path)[0]] *)
  get_metadata : string → option (gmap string pyval);
  (** whether [ExifToolHelper.set_tags] on the file succeeds *)
  set_tags_ok : string → bool;
  (** [rg.search((lat, lon), verbose=False)[0]] *)
  rg_search : pyval → pyval → option geo
}.

Section Program.
Context `{Platform}.

(** [set(t)] *)
Definition py_set (t : table) : table := TSet (set_iter (set_members (rows_of t))).

(** [GPS_TABLE.append(r)]; a set has no [append]. *)
Definition GPS_TABLE_append (r : row) : M unit :=
  λ w, match GPS_TABLE w with
       | TList l => (Ok tt, set_GPS_TABLE (TList (l ++ [r])) w)
       | TSet _ => (Raise AttributeError, w)
       end.

(** The lookup of the attribute [GPS_TABLE.append] alone.  In a call
    [GPS_TABLE.append(arg)] Python looks the method up before it evaluates
    [arg]. *)
Definition GPS_TABLE_append_lookup : M unit :=
  λ w, match GPS_TABLE w with
       | TList _ => (Ok tt, w)
       | TSet _ => (Raise AttributeError, w)
       end.

(** [row[i]] *)
Definition index (row : list string) (i : nat) : M string :=
  of_option IndexError (row !! i).

(** EXT *)
Definition EXT : list string :=
  [".jpg"; ".jpeg"; ".png"; ".tif"; ".tiff"; ".raw"; ".cr2"; ".arw"; ".hif"; ".dng"; ".nef"].

Definition load_gps_csv (gps_csv_path : string) : M unit :=
  let* reader := of_option OSError (csv_reader gps_csv_path) in
  for_each reader (λ row,
    try_except
      (GPS_TABLE_append_lookup ;;;
       let* c0 := index row 0 in
       let* t := of_option ValueError (float_of_str c0) in
       let* c1 := index row 1 in
       let* c2 := index row 2 in
       let* c3 := index row 3 in
       GPS_TABLE_append (t, PStr c1, PStr c2, PStr c3))
      (λ e, secho (MsgCsvError e))) ;;;
  (λ w, (Ok tt, set_GPS_TABLE (py_set (GPS_TABLE w)) w)).

Definition write_gps_csv (gps_csv_path : string) : M unit :=
  (λ w, (Ok tt, set_GPS_TABLE (py_set (GPS_TABLE w)) w)) ;;;
  (if open_append gps_csv_path then ret tt else raise OSError) ;;;
  let* t := (λ w, (Ok (GPS_TABLE w), w)) in
  for_each (rows_of t) (λ row,
    try_except (emit (WriteRow gps_csv_path row))
               (λ e, secho (MsgCsvError e))).

(** [meta.get(key, "")] *)
Definition meta_get (meta : gmap string pyval) (key : string) : pyval :=
  default (PStr "") (meta !! key).

(** Returns [Some] of the tuple, or [None] for the empty tuple. *)
Definition read_photo_gps (photo_path : string) : M (option row) :=
  try_except
    (let* meta := of_option ExifToolError (get_metadata photo_path) in
     let lon := meta_get meta "EXIF:GPSLongitude" in
     let lat := meta_get meta "EXIF:GPSLatitude" in
     let alt := meta_get meta "EXIF:GPSAltitude" in
     let* timestamp :=
       match meta !! "EXIF:DateTimeOriginal" with
       | Some (PStr s) => of_option ValueError (strptime_timestamp s)
       | _ => raise TypeError
       end in
     secho (MsgExif photo_path timestamp lat lon) ;;;
     ret (Some (timestamp, lat, lon, alt)))
    (λ e, secho (MsgExifFailed photo_path) ;;; emit (Print e) ;;; ret None).

(** [abs(timestamp - gps_row[0])] *)
Definition time_diff (timestamp : float) (gps_row : row) : float :=
  abs (timestamp - row0 gps_row)%float.

(** One round of the [for] loop of [get_closest_gps_row], on the pair
    [(min_diff, closest_gps_row)]. *)
Definition closer (timestamp : float) (acc : float * option row) (gps_row : row)
  : float * option row :=
  let '(min_diff, closest_gps_row) := acc in
  if (time_diff timestamp gps_row <? min_diff)%float
  then (time_diff timestamp gps_row, Some gps_row)
  else (min_diff, closest_gps_row).

Definition get_closest_gps_row (timestamp : float) : M (float * option row) :=
  λ w, (Ok (fold_left (closer timestamp) (rows_of (GPS_TABLE w)) (infinity, None)), w).

Definition gps_to_address (lat lon : pyval) : M string :=
  emit (RgSearch lat lon) ;;;
  let* result := of_option GeocoderError (rg_search lat lon) in
  ret (cc result ++ ", " ++ name result ++ ", " ++ admin1 result ++ ", " ++ cc result).

(** The tag dictionary handed to [set_tags]. *)
Definition gps_tags (lat lon alt : pyval) (lat_ref lon_ref : string) : gmap string pyval :=
  <["EXIF:GPSLatitude" := lat]>
  (<["EXIF:GPSLongitude" := lon]>
  (<["EXIF:GPSAltitude" := alt]>
  (<["EXIF:GPSLatitudeRef" := PStr lat_ref]>
  (<["EXIF:GPSLongitudeRef" := PStr lon_ref]> ∅)))).

Definition set_tags (photo_path : string) (tags : gmap string pyval)
    (params : list string) : M unit :=
  emit (SetTags photo_path tags params) ;;;
  if set_tags_ok photo_path then ret tt else raise ExifToolError.

Definition write_photo_gps (photo_path : string) : M unit :=
  let* exif_row := read_photo_gps photo_path in
  match exif_row with
  | None => ret tt
  | Some exif_row =>
    if truthy (row1 exif_row) && truthy (row2 exif_row) then ret tt else
    let* (min_diff, gps_row) := get_closest_gps_row (row0 exif_row) in
    match gps_row with
    | None => ret tt
    | Some (timestamp, lat, lon, alt) =>
      (if fromtimestamp timestamp then ret tt else raise OSError) ;;;
      let* address := gps_to_address lat lon in
      if (3600 <? min_diff)%float then
        secho (MsgTimeDiff photo_path min_diff timestamp)
      else
        secho (MsgMatch photo_path timestamp lat lon) ;;;
        secho (MsgAddress photo_path address) ;;;
        let* flat := of_option ValueError (py_float float_of_str lat) in
        let* flon := of_option ValueError (py_float float_of_str lon) in
        let* overwrite := (λ w, (Ok (OVERWRITE w), w)) in
        set_tags photo_path
          (gps_tags lat lon alt
             (if (0 <? flat)%float then "N" else "S")
             (if (0 <? flon)%float then "E" else "W"))
          ["-P"; if overwrite then "-overwrite_original" else ""] ;;;
        secho (MsgDone photo_path)
    end
  end.

(** ** The queue and the workers *)

(** [PHOTO_QUEUE.put(p)] *)
Definition queue_put (photo_path : string) : M unit :=
  λ w, (Ok tt, set_PHOTO_QUEUE (PHOTO_QUEUE w ++ [photo_path]) (S (unfinished_tasks w)) w).

(** [PHOTO_QUEUE.get(block=False)] *)
Definition queue_get : M string :=
  λ w, match PHOTO_QUEUE w with
       | [] => (Raise QueueEmpty, w)
       | p :: q => (Ok p, set_PHOTO_QUEUE q (unfinished_tasks w) w)
       end.

(** [PHOTO_QUEUE.task_done()] *)
Definition task_done : M unit :=
  λ w, match unfinished_tasks w with
       | O => (Raise ValueError, w)
       | S n => (Ok tt, set_PHOTO_QUEUE (PHOTO_QUEUE w) n w)
       end.

(** [PHOTO_QUEUE.join()], called once every worker has ended: with tasks
    still unfinished nobody is left to finish them and the call never
    returns. *)
Definition queue_join : M unit :=
  λ w, match unfinished_tasks w with
       | O => (Ok tt, w)
       | S _ => (Hang, w)
       end.

(** One round of the [while True] loop of a worker around [job]: [true] to
    go round again, [false] for [break].  Only [queue.Empty] is handled. *)
Definition worker_round (job : string → M unit) : M bool :=
  try_except
    (let* photo_path := queue_get in
     try_finally (job photo_path) task_done ;;;
     ret true)
    (λ e, match e with QueueEmpty => ret false | _ => raise e end).

Fixpoint worker_loop (job : string → M unit) (fuel : nat) : M unit :=
  match fuel with
  | O => λ w, (Hang, w)
  | S fuel' =>
    let* again := worker_round job in
    if again then worker_loop job fuel' else ret tt
  end.

(** Every round that does not leave the loop takes one path off the queue,
    so one round more than the queue is long is enough (see
    [worker_loop_fuel]). *)
Definition worker (job : string → M unit) : M unit :=
  λ w, worker_loop job (S (length (PHOTO_QUEUE w))) w.

Definition write_worker : M unit := worker write_photo_gps.

Definition read_job (photo_path : string) : M unit :=
  let* exif_row := read_photo_gps photo_path in
  match exif_row with
  | Some exif_row =>
    if truthy_float (row0 exif_row) && truthy (row1 exif_row) && truthy (row2 exif_row)
    then GPS_TABLE_append exif_row
    else ret tt
  | None => ret tt
  end.

Definition read_worker : M unit := worker read_job.

(** A thread running [target]: an exception that leaves [target] ends the
    thread and is reported by the threading machinery, not re-raised. *)
Definition thread (target : M unit) : M unit :=
  try_except target (λ e, emit (ThreadException e)).

(** The pool, under the schedule in which the threads run one after the
    other; with [threads = 1] there is no other schedule. *)
Fixpoint run_threads (n : nat) (target : M unit) : M unit :=
  match n with
  | O => ret tt
  | S n' => thread target ;;; run_threads n' target
  end.

(** ** The command line *)

Definition process_file (photo_path : string) : M unit :=
  if existsb (endswith (str_lower photo_path)) EXT
     && negb (str_contains "thumb" (str_lower photo_path))
  then queue_put photo_path
  else secho (MsgUnsupported photo_path).

Definition loop_file (photos_path : string) : M unit :=
  if isfile photos_path then process_file photos_path
  else if isdir photos_path then for_each (walk_files photos_path) process_file
  else ret tt.

Definition main (arg1 arg2 : string) (overwrite : bool) (threads : Z) : M unit :=
  (* [OVERWRITE = overwrite] comes without a [global OVERWRITE] statement:
     it binds a variable local to [main], and the module-level [OVERWRITE]
     that [write_photo_gps] reads keeps its value. *)
  let OVERWRITE_local := overwrite in
  if endswith (str_lower arg1) ".csv" then
    let gps_csv_path := arg1 in
    let photos_path := arg2 in
    load_gps_csv gps_csv_path ;;;
    loop_file photos_path ;;;
    run_threads (Z.to_nat threads) write_worker ;;;
    queue_join
  else if endswith (str_lower arg2) ".csv" then
    let gps_csv_path := arg2 in
    let photos_path := arg1 in
    loop_file photos_path ;;;
    run_threads (Z.to_nat threads) read_worker ;;;
    queue_join ;;;
    write_gps_csv gps_csv_path
  else ret tt.

End Program.

(** ** A concrete platform

    A machine whose clock is UTC, with a handful of CSV files and photos;
    the examples below are evaluated on it.  Each table lists what Python
    returns for the strings and paths that occur in the examples. *)
Module Demo.

Definition lookup_in {A} (l : list (string * A)) (k : string) : option A :=
  snd <$> List.find (λ kv, String.eqb kv.1 k) l.

(** [float(s)]; strings outside the table are the unparsable ones used. *)
Definition parse_float (s : string) : option float :=
  lookup_in
    [("1700000000", 1700000000%float); ("0", 0%float); ("35.0", 35%float);
     ("139.0", 139%float); ("10", 10%float); ("1", 1%float); ("2", 2%float);
     ("3", 3%float); ("-5.0", (-5)%float); ("0.0", 0%float);
     ("inf", infinity); ("nan", nan)] s.

Definition lower_ascii (c : Ascii.ascii) : Ascii.ascii :=
  let n := Ascii.nat_of_ascii c in
  if ((65 <=? n) && (n <=? 90))%nat then Ascii.ascii_of_nat (n + 32) else c.

Fixpoint lower (s : string) : string :=
  match s with
  | EmptyString => EmptyString
  | String c s' => String (lower_ascii c) (lower s')
  end.

Definition capture_time (s : string) : option float :=
  lookup_in
    [("1970:01:01 00:00:00", 0%float);
     ("2023:11:14 22:13:20", 1700000000%float);
     ("2023:11:14 22:28:20", 1700000900%float);
     ("2023:11:14 23:13:20", 1700003600%float);
     ("2023:11:14 23:13:21", 1700003601%float)] s.

(** Years 1 to 9999. *)
Definition in_datetime_range (t : float) : bool :=
  ((-62135596800) <=? t)%float && (t <=? 253402300799)%float.

Definition no_gps (date : string) : gmap string pyval :=
  {[ "EXIF:DateTimeOriginal" := PStr date ]}.

Definition with_gps (date : string) (lat lon alt : pyval) : gmap string pyval :=
  <["EXIF:GPSLatitude" := lat]> (<["EXIF:GPSLongitude" := lon]>
  (<["EXIF:GPSAltitude" := alt]> (no_gps date))).

(** The photos exiftool can read. *)
Definition photos : list (string * gmap string pyval) :=
  [("a.jpg", no_gps "2023:11:14 22:28:20");
   ("edge.jpg", no_gps "2023:11:14 23:13:20");
   ("far.jpg", no_gps "2023:11:14 23:13:21");
   ("tagged.jpg", with_gps "2023:11:14 22:28:20" (PFloat 35.5) (PFloat 139.5) (PInt 10));
   ("equator.jpg", with_gps "2023:11:14 22:28:20" (PInt 0) (PFloat 139.5) (PInt 10));
   ("epoch.jpg", with_gps "1970:01:01 00:00:00" (PFloat 35.5) (PFloat 139.5) (PInt 10));
   ("shoot/1.jpg", no_gps "2023:11:14 22:28:20");
   ("shoot/2.jpg", no_gps "2023:11:14 22:28:20");
   ("trip/1.jpg", with_gps "2023:11:14 22:13:20" (PFloat 35) (PFloat 139) (PInt 10));
   ("trip/2.jpg", with_gps "2023:11:14 22:13:20" (PFloat 35) (PFloat 139) (PInt 10))].

Definition metadata (photo_path : string) : option (gmap string pyval) :=
  lookup_in photos photo_path.

(** [shoot/1.jpg] is write-protected. *)
Definition writable (photo_path : string) : bool :=
  negb (String.eqb photo_path "shoot/1.jpg").

Definition is_file (path : string) : bool :=
  bool_decide (is_Some (metadata path)).

Definition files_under (path : string) : list string :=
  default [] (lookup_in
    [("shoot", ["shoot/1.jpg"; "shoot/2.jpg"]);
     ("trip", ["trip/1.jpg"; "trip/2.jpg"])] path).

Definition is_dir (path : string) : bool :=
  String.eqb path "shoot" || String.eqb path "trip".

Definition csv_file (path : string) : option (list (list string)) :=
  lookup_in
    [("gps.csv", [["timestamp"; "latitude"; "longitude"; "altitude"];
                  ["1700000000"; "35.0"; "139.0"; "10"]]);
     ("text.csv", [["1700000000"; "north"; "139.0"; "10"]]);
     ("equator.csv", [["1700000000"; "0.0"; "0.0"; "10"]]);
     ("inf.csv", [["inf"; "1"; "2"; "3"]]);
     ("dup.csv", [["0"; "1"; "2"; "3"]; ["0.0"; "1"; "2"; "3"]; ["0"; "1"; "2"; "3"]]);
     ("nan.csv", [["nan"; "1"; "2"; "3"]; ["nan"; "1"; "2"; "3"]])] path.

(** The geocoder answers for numeric coordinates only. *)
Definition geocode (lat lon : pyval) : option geo :=
  match py_float parse_float lat, py_float parse_float lon with
  | Some _, Some _ => Some (mkGeo "JP" "Tokyo" "Tokyo")
  | _, _ => None
  end.

#[export] Instance platform : Platform := {|
  float_of_str := parse_float;
  str_lower := lower;
  strptime_timestamp := capture_time;
  fromtimestamp := in_datetime_range;
  set_iter := λ l, l;
  set_iter_perm := λ l, Permutation_refl l;
  isfile := is_file;
  isdir := is_dir;
  walk_files := files_under;
  csv_reader := csv_file;
  open_append := λ _, true;
  get_metadata := metadata;
  set_tags_ok := writable;
  rg_search := geocode
|}.

(** The module after [load_gps_csv] from its initial state. *)
Definition loaded (gps_csv_path : string) : world :=
  (load_gps_csv gps_csv_path initial_world).2.

(** The tags written for the sample of [gps.csv]. *)
Definition tokyo_tags : gmap string pyval :=
  gps_tags (PStr "35.0") (PStr "139.0") (PStr "10") "N" "E".

End Demo.

(** ** Vocabulary of the statements *)

(** The events a run added to the trace. *)
Definition events_since (w w' : world) : list event :=
  drop (length (trace w)) (trace w').

(** The calls of [set_tags] among some events: path, tags and parameters. *)
Definition set_tags_calls (l : list event) : list (string * gmap string pyval * list string) :=
  omap (λ e, match e with SetTags p t ps => Some (p, t, ps) | _ => None end) l.

(** The coordinates handed to the geocoder. *)
Definition rg_search_calls (l : list event) : list (pyval * pyval) :=
  omap (λ e, match e with RgSearch lat lon => Some (lat, lon) | _ => None end) l.

(** The addresses reported on the console. *)
Definition addresses_reported (l : list event) : list (string * string) :=
  omap (λ e, match e with Secho (MsgAddress p a) => Some (p, a) | _ => None end) l.

(** The rows handed to the CSV writer for a file. *)
Definition rows_written (gps_csv_path : string) (l : list event) : list row :=
  omap (λ e, match e with
             | WriteRow p r => if String.eqb p gps_csv_path then Some r else None
             | _ => None
             end) l.

(** [m] keeps the property [I] of the world. *)
Definition preserves {A} (I : world → Prop) (m : M A) : Prop :=
  ∀ w, I w → I (m w).2.

(** The global [OVERWRITE] is [False], and no call of [set_tags] so far
    asked exiftool to overwrite the original. *)
Definition backup_kept (w : world) : Prop :=
  OVERWRITE w = false
  ∧ ∀ c, c ∈ set_tags_calls (trace w) → c.2 = ["-P"; ""].

(** [w'] is [w] with events added to the trace, and nothing else changed. *)
Definition only_events (w w' : world) : Prop :=
  ∃ evs, w' = mkWorld (GPS_TABLE w) (PHOTO_QUEUE w) (unfinished_tasks w) (OVERWRITE w)
                      (trace w ++ evs).

(** The tuple [load_gps_csv] builds from a row of the CSV reader, when the
    row has four cells and the first converts to a float. *)
Definition parsed_row `{Platform} (cells : list string) : option row :=
  match cells with
  | c0 :: c1 :: c2 :: c3 :: _ =>
      match float_of_str c0 with
      | Some t => Some (t, PStr c1, PStr c2, PStr c3)
      | None => None
      end
  | _ => None
  end.

(** No row of the list is equal ([==]) to a later one. *)
Fixpoint distinct (l : list row) : Prop :=
  match l with
  | [] => True
  | x :: l' => (∀ y, y ∈ l' → row_eqb x y = false) ∧ distinct l'
  end.

(** The shape of the tuples that come from a CSV file. *)
Definition from_csv (r : row) : Prop :=
  ∃ t c1 c2 c3, r = (t, PStr c1, PStr c2, PStr c3).

(** What the scan of [get_closest_gps_row] for [T] knows after the rows
    [seen], as a property of the pair it carries. *)
Definition nearest (T : float) (seen : list row) (acc : float * option row) : Prop :=
  match acc.2 with
  | Some r =>
      r ∈ seen ∧ acc.1 = time_diff T r ∧ (acc.1 <? infinity)%float = true
      ∧ ∀ r', r' ∈ seen → (time_diff T r' <? acc.1)%float = false
  | None =>
      acc.1 = infinity ∧ ∀ r', r' ∈ seen → (time_diff T r' <? infinity)%float = false
  end.

(** Lexicographic comparison of (exponent, mantissa), the order of two
    finite floats of the same sign. *)
Definition lex (e1 : Z) (m1 : positive) (e2 : Z) (m2 : positive) : comparison :=
  match e1 ?= e2 with
  | Lt => Lt
  | Gt => Gt
  | Eq => Pos.compare_cont Eq m1 m2
  end.

(** The row the scan of [get_closest_gps_row] carries is the first of the
    rows [seen] with its time difference: every row before it is not at or
    below that difference. *)
Definition first_nearest (T : float) (seen : list row) (acc : float * option row) : Prop :=
  match acc.2 with
  | Some r =>
      ∃ l1 l2, seen = (l1 ++ r :: l2)%list
               ∧ ∀ r', r' ∈ l1 → (time_diff T r' <=? acc.1)%float = false
  | None => True
  end.

(** The events [write_photo_gps] adds once the nearest sample
    [(ts, glat, glon, galt)] at distance [d] of a photo has been found, after
    the console line of the read, and how the call ends. *)
Definition matched_run `{Platform} (p : string) (overwrite : bool) (d ts : float)
    (glat glon galt : pyval) : list event * outcome unit :=
  if fromtimestamp ts then
    match rg_search glat glon with
    | None => ([RgSearch glat glon], Raise GeocoderError)
    | Some g =>
      if (3600 <? d)%float then
        ([RgSearch glat glon; Secho (MsgTimeDiff p d ts)], Ok tt)
      else
        let said :=
          [RgSearch glat glon; Secho (MsgMatch p ts glat glon);
           Secho (MsgAddress p (cc g ++ ", " ++ name g ++ ", " ++ admin1 g ++ ", " ++ cc g))] in
        match py_float float_of_str glat, py_float float_of_str glon with
        | Some flat, Some flon =>
          let call :=
            SetTags p
              (gps_tags glat glon galt
                 (if (0 <? flat)%float then "N" else "S")
                 (if (0 <? flon)%float then "E" else "W"))
              ["-P"; if overwrite then "-overwrite_original" else ""] in
          if set_tags_ok p
          then ((said ++ [call; Secho (MsgDone p)])%list, Ok tt)
          else ((said ++ [call])%list, Raise ExifToolError)
        | _, _ => (said, Raise ValueError)
        end
    end
  else ([], Raise OSError).

(** The tuple a photo contributes in harvest mode: what [read_photo_gps]
    returns for it, when the timestamp, the latitude and the longitude are
    truthy. *)
Definition harvest_row `{Platform} (photo_path : string) : option row :=
  match (read_photo_gps photo_path initial_world).1 with
  | Ok (Some r) =>
      if truthy_float (row0 r) && truthy (row1 r) && truthy (row2 r)
      then Some r else None
  | _ => None
  end.

(** The test of [process_file]. *)
Definition eligible `{Platform} (photo_path : string) : bool :=
  existsb (endswith (str_lower photo_path)) EXT
  && negb (str_contains "thumb" (str_lower photo_path)).

(** The files [loop_file] looks at. *)
Definition candidates `{Platform} (photos_path : string) : list string :=
  if isfile photos_path then [photos_path]
  else if isdir photos_path then walk_files photos_path
  else [].

(** Only paths that satisfy [ok] wait in the queue, and only such paths
    have been handed to [set_tags]. *)
Definition paths_ok (ok : string → Prop) (w : world) : Prop :=
  (∀ p, p ∈ PHOTO_QUEUE w → ok p)
  ∧ ∀ c, c ∈ set_tags_calls (trace w) → ok c.1.1.

(** An event that is a line on the console. *)
Definition console (e : event) : Prop :=
  match e with Secho _ | Print _ => True | _ => False end.

(** What the read of a photo puts on the console: the trace of
    [read_photo_gps] from the initial state. *)
Definition read_output `{Platform} (photo_path : string) : list event :=
  trace (read_photo_gps photo_path initial_world).2.

(** Nothing waits in the queue, no task is unfinished, and the trace holds
    console lines only. *)
Definition idle_console (w : world) : Prop :=
  PHOTO_QUEUE w = [] ∧ unfinished_tasks w = 0%nat
  ∧ Forall console (trace w).

(** ** A second platform

    The machine of [Demo] with one more CSV file, [header.csv], that holds a
    header and no sample, and an output file, [locked.csv], that cannot be
    opened; and two small tables whose rows are at the same distance of the
    timestamp 5. *)
Module Field.

Definition csv_file (path : string) : option (list (list string)) :=
  if String.eqb path "header.csv"
  then Some [["timestamp"; "latitude"; "longitude"; "altitude"]]
  else Demo.csv_file path.

#[export] Instance platform : Platform := {|
  float_of_str := Demo.parse_float;
  str_lower := Demo.lower;
  strptime_timestamp := Demo.capture_time;
  fromtimestamp := Demo.in_datetime_range;
  set_iter := λ l, l;
  set_iter_perm := λ l, Permutation_refl l;
  isfile := Demo.is_file;
  isdir := Demo.is_dir;
  walk_files := Demo.files_under;
  csv_reader := csv_file;
  open_append := λ path, negb (String.eqb path "locked.csv");
  get_metadata := Demo.metadata;
  set_tags_ok := Demo.writable;
  rg_search := Demo.geocode
|}.

Definition before : row := (0%float, PStr "1", PStr "1", PStr "1").
Definition after : row := (10%float, PStr "2", PStr "2", PStr "2").

Definition tie_table : world := mkWorld (TSet [before; after]) [] 0 false [].
Definition tie_table_swapped : world := mkWorld (TSet [after; before]) [] 0 false [].

End Field.

(** * Properties *)

(** ** The float order *)

Lemma lex_Lt e1 m1 e2 m2 :
  lex e1 m1 e2 m2 = Lt ↔ e1 < e2 ∨ (e1 = e2 ∧ (m1 < m2)%positive).
Proof.
  unfold lex. destruct (Z.compare_spec e1 e2) as [E|E|E]; try subst e1.
  - change (Pos.compare_cont Eq m1 m2) with (m1 ?= m2)%positive.
    rewrite Pos.compare_lt_iff. intuition lia.
  - intuition lia.
  - split; [done|lia].
Qed.

Lemma lex_Gt e1 m1 e2 m2 :
  lex e1 m1 e2 m2 = Gt ↔ e2 < e1 ∨ (e1 = e2 ∧ (m2 < m1)%positive).
Proof.
  unfold lex. destruct (Z.compare_spec e1 e2) as [E|E|E]; try subst e1.
  - change (Pos.compare_cont Eq m1 m2) with (m1 ?= m2)%positive.
    rewrite Pos.compare_gt_iff. intuition lia.
  - split; [done|lia].
  - intuition lia.
Qed.

Lemma lex_Eq e1 m1 e2 m2 : lex e1 m1 e2 m2 = Eq ↔ e1 = e2 ∧ m1 = m2.
Proof.
  unfold lex. destruct (Z.compare_spec e1 e2) as [E|E|E]; try subst e1.
  - change (Pos.compare_cont Eq m1 m2) with (m1 ?= m2)%positive.
    rewrite Pos.compare_eq_iff. intuition lia.
  - split; [done|lia].
  - split; [done|lia].
Qed.

Lemma SFcompare_finite s1 m1 e1 s2 m2 e2 :
  SFcompare (S754_finite s1 m1 e1) (S754_finite s2 m2 e2)
  = Some match s1, s2 with
         | true, false => Lt
         | false, true => Gt
         | false, false => lex e1 m1 e2 m2
         | true, true => CompOpp (lex e1 m1 e2 m2)
         end.
Proof. unfold lex. simpl. destruct s1, s2, (e1 ?= e2); reflexivity. Qed.

Lemma CompOpp_Lt c : CompOpp c = Lt ↔ c = Gt.
Proof. destruct c; simpl; intuition congruence. Qed.
Lemma CompOpp_Gt c : CompOpp c = Gt ↔ c = Lt.
Proof. destruct c; simpl; intuition congruence. Qed.
Lemma CompOpp_Eq c : CompOpp c = Eq ↔ c = Eq.
Proof. destruct c; simpl; intuition congruence. Qed.

Ltac sf_cases :=
  repeat match goal with
  | x : spec_float |- _ => destruct x as [[]|[]| |[] ? ?]
  end;
  rewrite ?SFcompare_finite in *; simpl in *; try congruence.

Lemma SFcompare_Lt_trans x y z :
  SFcompare x y = Some Lt → SFcompare y z = Some Lt → SFcompare x z = Some Lt.
Proof.
  sf_cases; intros H1 H2; simplify_eq; f_equal;
    rewrite ?CompOpp_Lt, ?lex_Lt, ?lex_Gt in *; lia.
Qed.

Lemma SFcompare_Lt_Gt x y : SFcompare x y = Some Lt ↔ SFcompare y x = Some Gt.
Proof.
  sf_cases; split; intros H1; simplify_eq; f_equal;
    rewrite ?CompOpp_Lt, ?CompOpp_Gt, ?lex_Lt, ?lex_Gt in *; lia.
Qed.

Lemma SFcompare_Eq_sym x y : SFcompare x y = Some Eq → SFcompare y x = Some Eq.
Proof.
  sf_cases; intros H1; simplify_eq; f_equal;
    rewrite ?CompOpp_Eq, ?lex_Eq in *; intuition congruence.
Qed.

Lemma SFcompare_Eq_trans x y z :
  SFcompare x y = Some Eq → SFcompare y z = Some Eq → SFcompare x z = Some Eq.
Proof.
  sf_cases; intros H1 H2; simplify_eq; f_equal;
    rewrite ?CompOpp_Eq, ?lex_Eq in *; intuition congruence.
Qed.

Lemma SFcompare_refl x : x ≠ S754_nan → SFcompare x x = Some Eq.
Proof.
  sf_cases; intros _; f_equal; rewrite ?CompOpp_Eq, ?lex_Eq; done.
Qed.

Lemma SFcompare_refl_eq x c : SFcompare x x = Some c → c = Eq.
Proof.
  intros E. destruct x as [s|s| |s m e] eqn:Ex; try done;
    rewrite <- Ex, SFcompare_refl in E; congruence.
Qed.

Lemma SFcompare_None x y : SFcompare x y = None ↔ x = S754_nan ∨ y = S754_nan.
Proof. sf_cases; intuition congruence. Qed.

Local Open Scope float_scope.

Lemma Prim2SF_nan x : Prim2SF x = S754_nan ↔ (x =? x) = false.
Proof.
  rewrite FloatAxioms.eqb_spec. unfold SFeqb. split.
  - intros ->. done.
  - intros E. destruct (Prim2SF x) eqn:Ex; try done;
      rewrite SFcompare_refl in E; done.
Qed.

Lemma ltb_irrefl x : (x <? x) = false.
Proof.
  rewrite FloatAxioms.ltb_spec. unfold SFltb.
  destruct (SFcompare (Prim2SF x) (Prim2SF x)) as [c|] eqn:E; [|done].
  by rewrite (SFcompare_refl_eq _ _ E).
Qed.

Lemma ltb_Lt x y : (x <? y) = true ↔ SFcompare (Prim2SF x) (Prim2SF y) = Some Lt.
Proof.
  rewrite FloatAxioms.ltb_spec. unfold SFltb.
  destruct (SFcompare _ _) as [[]|]; intuition congruence.
Qed.

Lemma ltb_trans x y z : (x <? y) = true → (y <? z) = true → (x <? z) = true.
Proof. rewrite !ltb_Lt. apply SFcompare_Lt_trans. Qed.

(** The form of transitivity the scan needs: when the minimum is lowered
    from [z] to [y], what was not below [z] is not below [y]. *)
Lemma ltb_false_lower x y z :
  (x <? z) = false → (y <? z) = true → (x <? y) = false.
Proof.
  intros Hxz Hyz. destruct (x <? y) eqn:Hxy; [|done].
  by rewrite (ltb_trans _ _ _ Hxy Hyz) in Hxz.
Qed.

Lemma leb_not_ltb x y : (x <=? y) = true → (y <? x) = false.
Proof.
  rewrite FloatAxioms.leb_spec, FloatAxioms.ltb_spec. unfold SFleb, SFltb.
  destruct (SFcompare (Prim2SF y) (Prim2SF x)) as [[]|] eqn:E; try done.
  apply SFcompare_Lt_Gt in E. by rewrite E.
Qed.

Lemma not_ltb_leb x y :
  (x =? x) = true → (y =? y) = true → (x <? y) = false → (y <=? x) = true.
Proof.
  rewrite FloatAxioms.leb_spec, FloatAxioms.ltb_spec. unfold SFleb, SFltb. intros Hx Hy.
  destruct (SFcompare (Prim2SF x) (Prim2SF y)) as [[]|] eqn:E; try done; intros _.
  - by rewrite (SFcompare_Eq_sym _ _ E).
  - destruct (SFcompare (Prim2SF y) (Prim2SF x)) as [[]|] eqn:E'; try done.
    + apply SFcompare_Lt_Gt in E'. congruence.
    + apply SFcompare_None in E' as [E'|E']; apply Prim2SF_nan in E'; congruence.
  - apply SFcompare_None in E as [E|E]; apply Prim2SF_nan in E; congruence.
Qed.

Lemma ltb_not_nan x y : (x <? y) = true → (x =? x) = true.
Proof.
  intros E%ltb_Lt. destruct (x =? x) eqn:Ex; [done|].
  apply Prim2SF_nan in Ex. by rewrite Ex in E.
Qed.

Lemma eqb_Eq x y : (x =? y) = true ↔ SFcompare (Prim2SF x) (Prim2SF y) = Some Eq.
Proof.
  rewrite FloatAxioms.eqb_spec. unfold SFeqb.
  destruct (SFcompare _ _) as [[]|]; intuition congruence.
Qed.

Lemma eqb_sym x y : (x =? y) = (y =? x).
Proof.
  destruct (x =? y) eqn:E1, (y =? x) eqn:E2; try done.
  - apply eqb_Eq, SFcompare_Eq_sym, eqb_Eq in E1. congruence.
  - apply eqb_Eq, SFcompare_Eq_sym, eqb_Eq in E2. congruence.
Qed.

Lemma eqb_trans x y z : (x =? y) = true → (y =? z) = true → (x =? z) = true.
Proof. rewrite !eqb_Eq. apply SFcompare_Eq_trans. Qed.

Local Close Scope float_scope.

(** ** The nearest-match scan *)

Section Nearest.
Local Open Scope float_scope.
Variable T : float.

Lemma nearest_start : nearest T [] (infinity, None).
Proof. split; [done|]. intros r' Hr'. by apply elem_of_nil in Hr'. Qed.

Lemma nearest_step seen acc x :
  nearest T seen acc → nearest T (seen ++ [x]) (closer T acc x).
Proof.
  destruct acc as [d [r|]]; unfold nearest, closer; simpl.
  - intros (Hin & -> & Hfin & Hmin).
    destruct (time_diff T x <? time_diff T r) eqn:Hlt; simpl.
    + split; [set_solver|]. split; [done|]. split; [by eapply ltb_trans|].
      intros r' [Hr'| ->%list_elem_of_singleton]%elem_of_app.
      * eapply ltb_false_lower; eauto.
      * apply ltb_irrefl.
    + split; [set_solver|]. split; [done|]. split; [done|].
      intros r' [Hr'| ->%list_elem_of_singleton]%elem_of_app; auto.
  - intros [-> Hmin].
    destruct (time_diff T x <? infinity) eqn:Hlt; simpl.
    + split; [set_solver|]. split; [done|]. split; [done|].
      intros r' [Hr'| ->%list_elem_of_singleton]%elem_of_app.
      * eapply ltb_false_lower; eauto.
      * apply ltb_irrefl.
    + split; [done|].
      intros r' [Hr'| ->%list_elem_of_singleton]%elem_of_app; auto.
Qed.

Lemma nearest_fold l : ∀ seen acc,
  nearest T seen acc → nearest T (seen ++ l) (fold_left (closer T) l acc).
Proof.
  induction l as [|x l IH]; intros seen acc Hacc; simpl.
  - by rewrite app_nil_r.
  - replace (seen ++ x :: l)%list with ((seen ++ [x]) ++ l)%list by (by rewrite <- app_assoc).
    apply IH. by apply nearest_step.
Qed.

End Nearest.

(** C2 (amended): [get_closest_gps_row] always returns, leaves the world as
    it found it, and returns [(infinity, ())] for an empty table.  When it
    returns a row, the row is in the table, [min_diff] is its time
    difference, that difference is below infinity, no row of the table has a
    smaller one, and it is at most every difference that is not a NaN.  When
    it returns no row, [min_diff] is infinity and no row of the table has a
    difference below infinity: the table is empty, or every difference is
    infinite or a NaN. *)
Theorem get_closest_gps_row_nearest (T : float) (w : world) :
  ∃ min_diff closest,
    get_closest_gps_row T w = (Ok (min_diff, closest), w)
    ∧ (rows_of (GPS_TABLE w) = [] → min_diff = infinity ∧ closest = None)
    ∧ match closest with
      | Some r =>
          r ∈ rows_of (GPS_TABLE w)
          ∧ min_diff = time_diff T r
          ∧ (min_diff <? infinity)%float = true
          ∧ ∀ r', r' ∈ rows_of (GPS_TABLE w) →
              (time_diff T r' <? min_diff)%float = false
              ∧ ((time_diff T r' =? time_diff T r')%float = true →
                 (min_diff <=? time_diff T r')%float = true)
      | None =>
          min_diff = infinity
          ∧ ∀ r', r' ∈ rows_of (GPS_TABLE w) →
              (time_diff T r' <? infinity)%float = false
      end.
Proof.
  unfold get_closest_gps_row.
  pose proof (nearest_fold T (rows_of (GPS_TABLE w)) [] _ (nearest_start T)) as Hn.
  destruct (fold_left _ _ _) as [d c] eqn:Hfold. simpl in Hn.
  exists d, c. split; [done|]. split.
  - intros Hnil. rewrite Hnil in Hfold. simpl in Hfold. by simplify_eq.
  - unfold nearest in Hn. simpl in Hn. destruct c as [r|].
    + destruct Hn as (Hin & Hd & Hfin & Hmin). repeat split; auto.
      intros Hnan. apply not_ltb_leb; auto. by eapply ltb_not_nan.
    + done.
Qed.

(** ** One photo in inject mode *)

Lemma events_since_app w w' evs :
  trace w' = (trace w ++ evs)%list → events_since w w' = evs.
Proof. unfold events_since. intros ->. by rewrite drop_app_length. Qed.

Ltac run_inject :=
  cbv [bind ret raise of_option secho emit set_tags gps_to_address]; simpl.

Ltac new_events :=
  erewrite events_since_app by (simpl; rewrite <- ?app_assoc; reflexivity).

Section Inject.
Context `{Platform}.

(** A successful read does not depend on the world, and adds one line to
    the console. *)
Lemma read_photo_gps_some p w r :
  (read_photo_gps p w).1 = Ok (Some r) →
  ∀ w', read_photo_gps p w'
        = (Ok (Some r), add_event (Secho (MsgExif p (row0 r) (row1 r) (row2 r))) w').
Proof.
  unfold read_photo_gps, try_except, bind, of_option, secho, emit, ret, raise.
  intros Hr w'. destruct (get_metadata p) as [meta|]; simpl in *; [|done].
  destruct (meta !! "EXIF:DateTimeOriginal") as [[s| |]|]; simpl in *; try done.
  destruct (strptime_timestamp s) as [t|]; simpl in *; [|done].
  by simplify_eq.
Qed.

(** [read_photo_gps] never raises: a failure is turned into the empty
    tuple and two lines on the console, the failure line and the printed
    exception. *)
Lemma read_photo_gps_returns p w :
  (∃ r, read_photo_gps p w
        = (Ok (Some r), add_event (Secho (MsgExif p (row0 r) (row1 r) (row2 r))) w))
  ∨ (∃ e, read_photo_gps p w
          = (Ok None, add_event (Print e) (add_event (Secho (MsgExifFailed p)) w))).
Proof.
  unfold read_photo_gps, try_except, bind, of_option, secho, emit, ret, raise.
  destruct (get_metadata p) as [meta|]; simpl; [|by right; eauto].
  destruct (meta !! "EXIF:DateTimeOriginal") as [[s| |]|]; simpl;
    try (by right; eauto).
  destruct (strptime_timestamp s) as [t|]; simpl; [|by right; eauto].
  left. eexists (_, _, _, _). reflexivity.
Qed.

Lemma get_closest_gps_row_add_event t e w x :
  (get_closest_gps_row t w).1 = Ok x →
  get_closest_gps_row t (add_event e w) = (Ok x, add_event e w).
Proof. unfold get_closest_gps_row. simpl. by intros [= ->]. Qed.

Lemma write_photo_gps_skip p w t lat lon alt :
  (read_photo_gps p w).1 = Ok (Some (t, lat, lon, alt)) →
  truthy lat && truthy lon = true →
  write_photo_gps p w = (Ok tt, add_event (Secho (MsgExif p t lat lon)) w).
Proof.
  intros Hread Hgps. unfold write_photo_gps, bind.
  rewrite (read_photo_gps_some _ _ _ Hread w). unfold row1, row2. simpl.
  by rewrite Hgps.
Qed.

Lemma write_photo_gps_unreadable p w e :
  read_photo_gps p w
  = (Ok None, add_event (Print e) (add_event (Secho (MsgExifFailed p)) w)) →
  write_photo_gps p w
  = (Ok tt, add_event (Print e) (add_event (Secho (MsgExifFailed p)) w)).
Proof. intros Hread. unfold write_photo_gps, bind. by rewrite Hread. Qed.

Lemma write_photo_gps_no_sample p w t lat lon alt d :
  (read_photo_gps p w).1 = Ok (Some (t, lat, lon, alt)) →
  truthy lat && truthy lon = false →
  (get_closest_gps_row t w).1 = Ok (d, None) →
  write_photo_gps p w = (Ok tt, add_event (Secho (MsgExif p t lat lon)) w).
Proof.
  intros Hread Hgps Hnear. unfold write_photo_gps at 1. unfold bind at 1.
  rewrite (read_photo_gps_some _ _ _ Hread w). unfold row0, row1, row2. simpl.
  rewrite Hgps. unfold bind at 1.
  by rewrite (get_closest_gps_row_add_event _ _ _ _ Hnear).
Qed.

Lemma get_closest_gps_row_returns t w :
  ∃ d c, get_closest_gps_row t w = (Ok (d, c), w).
Proof.
  unfold get_closest_gps_row. destruct (fold_left _ _ _) as [d c]. eauto.
Qed.

(** The guard of [write_photo_gps] as the source has it: a photo whose
    latitude and longitude are both truthy (a non-empty string or a number
    other than zero) is left alone, whatever the table holds:
    [write_photo_gps] returns after the read, and its only effect is the
    console line of the read. *)
Lemma write_photo_gps_existing_gps p w t lat lon alt :
  (read_photo_gps p w).1 = Ok (Some (t, lat, lon, alt)) →
  truthy lat && truthy lon = true →
  write_photo_gps p w = (Ok tt, add_event (Secho (MsgExif p t lat lon)) w)
  ∧ set_tags_calls (events_since w (write_photo_gps p w).2) = []
  ∧ rg_search_calls (events_since w (write_photo_gps p w).2) = [].
Proof.
  intros Hread Hgps. rewrite (write_photo_gps_skip _ _ _ _ _ _ Hread Hgps).
  split; [done|]. by split; new_events.
Qed.

(** The part of [write_photo_gps] after the nearest sample
    [(ts, glat, glon, galt)] at distance [d] has been found. *)
Lemma write_photo_gps_matched p w t lat lon alt d ts glat glon galt :
  (read_photo_gps p w).1 = Ok (Some (t, lat, lon, alt)) →
  truthy lat && truthy lon = false →
  (get_closest_gps_row t w).1 = Ok (d, Some (ts, glat, glon, galt)) →
  write_photo_gps p w
  = ((if fromtimestamp ts then ret tt else raise OSError) ;;;
     let* address := gps_to_address glat glon in
     if (3600 <? d)%float then
       secho (MsgTimeDiff p d ts)
     else
       secho (MsgMatch p ts glat glon) ;;;
       secho (MsgAddress p address) ;;;
       let* flat := of_option ValueError (py_float float_of_str glat) in
       let* flon := of_option ValueError (py_float float_of_str glon) in
       let* overwrite := (λ w, (Ok (OVERWRITE w), w)) in
       set_tags p
         (gps_tags glat glon galt
            (if (0 <? flat)%float then "N" else "S")
            (if (0 <? flon)%float then "E" else "W"))
         ["-P"; if overwrite then "-overwrite_original" else ""] ;;;
       secho (MsgDone p))
    (add_event (Secho (MsgExif p t lat lon)) w).
Proof.
  intros Hread Hgps Hnear. unfold write_photo_gps at 1. unfold bind at 1.
  rewrite (read_photo_gps_some _ _ _ Hread w). unfold row0, row1, row2. simpl.
  rewrite Hgps. unfold bind at 1.
  by rewrite (get_closest_gps_row_add_event _ _ _ _ Hnear).
Qed.

(** C3 (amended): for a photo with a readable timestamp that passes the
    guard (its latitude or its longitude is falsy, as it is for every photo
    without GPS data), whose nearest sample is at distance [d]:
    if [d > 3600], [set_tags] is not called, and when the sample's timestamp
    converts to a date and the geocoder answers, the rejection is reported;
    if [d <= 3600], and the sample's timestamp converts to a date, the
    geocoder answers and the sample's latitude and longitude convert to
    floats, [set_tags] is called once, on this photo, with the sample's
    coordinates. *)
Theorem write_photo_gps_threshold p w t lat lon alt d ts glat glon galt :
  (read_photo_gps p w).1 = Ok (Some (t, lat, lon, alt)) →
  truthy lat && truthy lon = false →
  (get_closest_gps_row t w).1 = Ok (d, Some (ts, glat, glon, galt)) →
  let new := events_since w (write_photo_gps p w).2 in
  ((3600 <? d)%float = true →
     set_tags_calls new = []
     ∧ (fromtimestamp ts = true → is_Some (rg_search glat glon) →
        Secho (MsgTimeDiff p d ts) ∈ new))
  ∧ ((d <=? 3600)%float = true →
     fromtimestamp ts = true → is_Some (rg_search glat glon) →
     ∀ flat flon,
       py_float float_of_str glat = Some flat →
       py_float float_of_str glon = Some flon →
       set_tags_calls new
       = [(p, gps_tags glat glon galt
                (if (0 <? flat)%float then "N" else "S")
                (if (0 <? flon)%float then "E" else "W"),
           ["-P"; if OVERWRITE w then "-overwrite_original" else ""])]).
Proof.
  intros Hread Hgps Hnear new. subst new.
  rewrite (write_photo_gps_matched _ _ _ _ _ _ _ _ _ _ _ Hread Hgps Hnear).
  split.
  - intros Hfar. run_inject. rewrite Hfar. split.
    + destruct (fromtimestamp ts); simpl; [|by new_events].
      destruct (rg_search glat glon); simpl; by new_events.
    + intros -> [g ->]. simpl. new_events. set_solver.
  - intros Hnear' Hdate [g Hg] flat flon Hlat Hlon. run_inject.
    rewrite Hdate, Hg, (leb_not_ltb _ _ Hnear'), Hlat, Hlon. simpl.
    destruct (set_tags_ok p); simpl; by new_events.
Qed.

(** C6 (amended): for a photo with a readable timestamp that passes the
    guard (its latitude or its longitude is falsy, as it is for every photo
    without GPS data), whose nearest sample has a timestamp that converts
    to a date, the geocoder is called once with the sample's
    coordinates, before the threshold is looked at: also when [d > 3600].
    For such a rejected match no address is reported and [set_tags] is not
    called. *)
Theorem write_photo_gps_geocodes_first p w t lat lon alt d ts glat glon galt :
  (read_photo_gps p w).1 = Ok (Some (t, lat, lon, alt)) →
  truthy lat && truthy lon = false →
  (get_closest_gps_row t w).1 = Ok (d, Some (ts, glat, glon, galt)) →
  fromtimestamp ts = true →
  let new := events_since w (write_photo_gps p w).2 in
  rg_search_calls new = [(glat, glon)]
  ∧ ((3600 <? d)%float = true →
     addresses_reported new = [] ∧ set_tags_calls new = []).
Proof.
  intros Hread Hgps Hnear Hdate new. subst new.
  rewrite (write_photo_gps_matched _ _ _ _ _ _ _ _ _ _ _ Hread Hgps Hnear).
  run_inject. rewrite Hdate. simpl. split.
  - destruct (rg_search glat glon); simpl; [|by new_events].
    destruct (3600 <? d)%float; simpl; [by new_events|].
    destruct (py_float float_of_str glat); simpl; [|by new_events].
    destruct (py_float float_of_str glon); simpl; [|by new_events].
    destruct (set_tags_ok p); simpl; by new_events.
  - intros ->. destruct (rg_search glat glon); simpl; by new_events.
Qed.

(** Every way through [write_photo_gps]: either [set_tags] is not called,
    or it is called once, for an accepted match whose coordinates convert
    to floats. *)
Lemma write_photo_gps_calls p w :
  let new := events_since w (write_photo_gps p w).2 in
  set_tags_calls new = []
  ∨ ∃ glat glon galt flat flon,
      py_float float_of_str glat = Some flat
      ∧ py_float float_of_str glon = Some flon
      ∧ set_tags_calls new
        = [(p, gps_tags glat glon galt
                 (if (0 <? flat)%float then "N" else "S")
                 (if (0 <? flon)%float then "E" else "W"),
            ["-P"; if OVERWRITE w then "-overwrite_original" else ""])].
Proof.
  simpl. destruct (read_photo_gps_returns p w) as [[[[[t lat] lon] alt] Hr]|[e Hr]].
  2:{ rewrite (write_photo_gps_unreadable _ _ _ Hr). left. by new_events. }
  assert ((read_photo_gps p w).1 = Ok (Some (t, lat, lon, alt))) as Hread
    by by rewrite Hr.
  destruct (truthy lat && truthy lon) eqn:Hgps.
  { rewrite (write_photo_gps_skip _ _ _ _ _ _ Hread Hgps). left. by new_events. }
  destruct (get_closest_gps_row_returns t w) as (d & c & Hc).
  assert ((get_closest_gps_row t w).1 = Ok (d, c)) as Hnear by by rewrite Hc.
  destruct c as [[[[ts glat] glon] galt]|].
  2:{ rewrite (write_photo_gps_no_sample _ _ _ _ _ _ _ Hread Hgps Hnear).
      left. by new_events. }
  rewrite (write_photo_gps_matched _ _ _ _ _ _ _ _ _ _ _ Hread Hgps Hnear).
  run_inject.
  destruct (fromtimestamp ts); simpl; [|left; by new_events].
  destruct (rg_search glat glon); simpl; [|left; by new_events].
  destruct (3600 <? d)%float; simpl; [left; by new_events|].
  destruct (py_float float_of_str glat) as [flat|] eqn:Hlat; simpl;
    [|left; by new_events].
  destruct (py_float float_of_str glon) as [flon|] eqn:Hlon; simpl;
    [|left; by new_events].
  right. exists glat, glon, galt, flat, flon. split; [done|]. split; [done|].
  destruct (set_tags_ok p); simpl; by new_events.
Qed.

Lemma eqb_zero_not_pos (f : float) : (f =? 0)%float = true → (0 <? f)%float = false.
Proof.
  intros E. destruct (0 <? f)%float eqn:L; [|done].
  rewrite eqb_sym in E. apply eqb_Eq in E. apply ltb_Lt in L. congruence.
Qed.

(** Whenever [write_photo_gps] calls [set_tags], the tags hold a latitude
    and a longitude that convert to floats [flat] and [flon], the latitude
    reference is "N" if [flat > 0] and "S" otherwise, and the longitude
    reference is "E" if [flon > 0] and "W" otherwise. *)
Lemma write_photo_gps_refs_of_call p w q tags params :
  (q, tags, params) ∈ set_tags_calls (events_since w (write_photo_gps p w).2) →
  ∃ lat lon flat flon,
    tags !! "EXIF:GPSLatitude" = Some lat
    ∧ tags !! "EXIF:GPSLongitude" = Some lon
    ∧ py_float float_of_str lat = Some flat
    ∧ py_float float_of_str lon = Some flon
    ∧ tags !! "EXIF:GPSLatitudeRef"
      = Some (PStr (if (0 <? flat)%float then "N" else "S"))
    ∧ tags !! "EXIF:GPSLongitudeRef"
      = Some (PStr (if (0 <? flon)%float then "E" else "W"))
    ∧ ((flat =? 0)%float = true → tags !! "EXIF:GPSLatitudeRef" = Some (PStr "S"))
    ∧ ((flon =? 0)%float = true → tags !! "EXIF:GPSLongitudeRef" = Some (PStr "W")).
Proof.
  intros Hin.
  destruct (write_photo_gps_calls p w)
    as [Hnone|(glat & glon & galt & flat & flon & Hlat & Hlon & Hcall)].
  { simpl in Hnone. rewrite Hnone in Hin. by apply elem_of_nil in Hin. }
  simpl in Hcall. rewrite Hcall in Hin.
  apply list_elem_of_singleton in Hin. simplify_eq.
  exists glat, glon, flat, flon. unfold gps_tags.
  repeat split; try done.
  - intros E. by rewrite (eqb_zero_not_pos _ E).
  - intros E. by rewrite (eqb_zero_not_pos _ E).
Qed.

(** The slip of the guard in general: a photo whose EXIF record holds a
    latitude or a longitude that is the number zero passes the guard like a
    photo without GPS data, and an accepted match with a usable sample
    overwrites its coordinates with the sample's. *)
Lemma write_photo_gps_zero_coordinate p w t lat lon alt d ts glat glon galt flat flon :
  (read_photo_gps p w).1 = Ok (Some (t, lat, lon, alt)) →
  lat = PInt 0 ∨ lat = PFloat 0 ∨ lon = PInt 0 ∨ lon = PFloat 0 →
  (get_closest_gps_row t w).1 = Ok (d, Some (ts, glat, glon, galt)) →
  (3600 <? d)%float = false →
  fromtimestamp ts = true →
  is_Some (rg_search glat glon) →
  py_float float_of_str glat = Some flat →
  py_float float_of_str glon = Some flon →
  ∃ tags params,
    set_tags_calls (events_since w (write_photo_gps p w).2) = [(p, tags, params)]
    ∧ tags !! "EXIF:GPSLatitude" = Some glat
    ∧ tags !! "EXIF:GPSLongitude" = Some glon.
Proof.
  intros Hread Hzero Hnear Hacc Hdate [g Hg] Hlat Hlon.
  assert (truthy lat && truthy lon = false) as Hgps.
  { destruct Hzero as [->|[->|[->| ->]]]; try done; apply andb_false_r. }
  rewrite (write_photo_gps_matched _ _ _ _ _ _ _ _ _ _ _ Hread Hgps Hnear).
  run_inject. rewrite Hdate, Hg, Hacc, Hlat, Hlon. simpl.
  eexists _, _. split.
  { destruct (set_tags_ok p); simpl; by new_events. }
  unfold gps_tags. by split.
Qed.

Lemma ltb_asym (x y : float) : (x <? y)%float = true → (y <? x)%float = false.
Proof.
  intros Hxy. destruct (y <? x)%float eqn:Hyx; [|done].
  by rewrite <- (ltb_trans _ _ _ Hxy Hyx), ltb_irrefl.
Qed.

(** C9: for an accepted match, that is, for a photo that is read and
    passes the guard, whose nearest sample fails the test [min_diff > 3600],
    has a timestamp that converts to a date and coordinates that the
    geocoder resolves and that convert to the floats [flat] and [flon],
    [write_photo_gps] calls [set_tags], once and on this photo, and the tags
    it hands over hold the sample's latitude and longitude with the latitude
    reference "N" if [flat > 0] and "S" otherwise, and the longitude reference
    "E" if [flon > 0] and "W" otherwise.  So a positive latitude is written
    with "N", a latitude equal to zero or negative with "S", a positive
    longitude with "E", and a longitude equal to zero or negative with
    "W". *)
Theorem write_photo_gps_hemisphere p w t lat lon alt d ts glat glon galt flat flon :
  (read_photo_gps p w).1 = Ok (Some (t, lat, lon, alt)) →
  truthy lat && truthy lon = false →
  (get_closest_gps_row t w).1 = Ok (d, Some (ts, glat, glon, galt)) →
  (3600 <? d)%float = false →
  fromtimestamp ts = true →
  is_Some (rg_search glat glon) →
  py_float float_of_str glat = Some flat →
  py_float float_of_str glon = Some flon →
  ∃ tags params,
    set_tags_calls (events_since w (write_photo_gps p w).2) = [(p, tags, params)]
    ∧ tags !! "EXIF:GPSLatitude" = Some glat
    ∧ tags !! "EXIF:GPSLongitude" = Some glon
    ∧ tags !! "EXIF:GPSLatitudeRef"
      = Some (PStr (if (0 <? flat)%float then "N" else "S"))
    ∧ tags !! "EXIF:GPSLongitudeRef"
      = Some (PStr (if (0 <? flon)%float then "E" else "W"))
    ∧ ((0 <? flat)%float = true → tags !! "EXIF:GPSLatitudeRef" = Some (PStr "N"))
    ∧ ((flat =? 0)%float = true → tags !! "EXIF:GPSLatitudeRef" = Some (PStr "S"))
    ∧ ((flat <? 0)%float = true → tags !! "EXIF:GPSLatitudeRef" = Some (PStr "S"))
    ∧ ((0 <? flon)%float = true → tags !! "EXIF:GPSLongitudeRef" = Some (PStr "E"))
    ∧ ((flon =? 0)%float = true → tags !! "EXIF:GPSLongitudeRef" = Some (PStr "W"))
    ∧ ((flon <? 0)%float = true → tags !! "EXIF:GPSLongitudeRef" = Some (PStr "W")).
Proof.
  intros Hread Hgps Hnear Hacc Hdate [g Hg] Hlat Hlon.
  rewrite (write_photo_gps_matched _ _ _ _ _ _ _ _ _ _ _ Hread Hgps Hnear).
  run_inject. rewrite Hdate, Hg, Hacc, Hlat, Hlon. simpl.
  eexists _, _. split.
  { destruct (set_tags_ok p); simpl; by new_events. }
  unfold gps_tags. repeat split; try done.
  - by intros ->.
  - intros E. by rewrite (eqb_zero_not_pos _ E).
  - intros E. by rewrite (ltb_asym _ _ E).
  - by intros ->.
  - intros E. by rewrite (eqb_zero_not_pos _ E).
  - intros E. by rewrite (ltb_asym _ _ E).
Qed.

End Inject.

(** ** Workers *)

Lemma only_events_refl w : only_events w w.
Proof. exists []. destruct w. simpl. by rewrite app_nil_r. Qed.

Lemma only_events_add e w w' : only_events w w' → only_events w (add_event e w').
Proof.
  intros [evs ->]. exists (evs ++ [e])%list. unfold add_event. simpl.
  by rewrite app_assoc.
Qed.

Lemma only_events_trans w1 w2 w3 :
  only_events w1 w2 → only_events w2 w3 → only_events w1 w3.
Proof.
  intros [e1 ->] [e2 ->]. exists (e1 ++ e2)%list. simpl. by rewrite app_assoc.
Qed.

Ltac frame_events :=
  repeat first [apply only_events_refl | apply only_events_add].

Section Workers.
Context `{Platform}.

Lemma read_photo_gps_only_events p w :
  only_events w (read_photo_gps p w).2 ∧ ∃ r, (read_photo_gps p w).1 = Ok r.
Proof.
  destruct (read_photo_gps_returns p w) as [[r ->]|[e ->]]; simpl;
    split; eauto; frame_events.
Qed.

(** [write_photo_gps] returns or raises, and only adds events. *)
Lemma write_photo_gps_only_events p w :
  only_events w (write_photo_gps p w).2 ∧ (write_photo_gps p w).1 ≠ Hang.
Proof.
  destruct (read_photo_gps_returns p w) as [[[[[t lat] lon] alt] Hr]|[e Hr]].
  2:{ rewrite (write_photo_gps_unreadable _ _ _ Hr). simpl. split; [frame_events|done]. }
  assert ((read_photo_gps p w).1 = Ok (Some (t, lat, lon, alt))) as Hread
    by by rewrite Hr.
  destruct (truthy lat && truthy lon) eqn:Hgps.
  { rewrite (write_photo_gps_skip _ _ _ _ _ _ Hread Hgps). simpl.
    split; [frame_events|done]. }
  destruct (get_closest_gps_row_returns t w) as (d & c & Hc).
  assert ((get_closest_gps_row t w).1 = Ok (d, c)) as Hnear by by rewrite Hc.
  destruct c as [[[[ts glat] glon] galt]|].
  2:{ rewrite (write_photo_gps_no_sample _ _ _ _ _ _ _ Hread Hgps Hnear). simpl.
      split; [frame_events|done]. }
  rewrite (write_photo_gps_matched _ _ _ _ _ _ _ _ _ _ _ Hread Hgps Hnear).
  run_inject.
  destruct (fromtimestamp ts); simpl; [|split; [frame_events|done]].
  destruct (rg_search glat glon); simpl; [|split; [frame_events|done]].
  destruct (3600 <? d)%float; simpl; [split; [frame_events|done]|].
  destruct (py_float float_of_str glat); simpl; [|split; [frame_events|done]].
  destruct (py_float float_of_str glon); simpl; [|split; [frame_events|done]].
  destruct (set_tags_ok p); simpl; split; try done; frame_events.
Qed.

(** C10: a photo whose capture time converts to a timestamp equal to zero
    is not appended by the read worker, whatever its latitude and longitude:
    the table is left as it was and the only effect is the console line of
    the read. *)
Theorem read_job_epoch_timestamp p w t lat lon alt :
  (read_photo_gps p w).1 = Ok (Some (t, lat, lon, alt)) →
  (t =? 0)%float = true →
  read_job p w = (Ok tt, add_event (Secho (MsgExif p t lat lon)) w)
  ∧ GPS_TABLE (read_job p w).2 = GPS_TABLE w.
Proof.
  intros Hread Ht. unfold read_job, bind.
  rewrite (read_photo_gps_some _ _ _ Hread w).
  unfold truthy_float, row0, row1, row2. simpl. by rewrite Ht.
Qed.

(** The other photos: with a truthy timestamp, latitude and longitude the
    tuple goes to the end of the list. *)
Lemma read_job_complete p w r l :
  (read_photo_gps p w).1 = Ok (Some r) →
  truthy_float (row0 r) && truthy (row1 r) && truthy (row2 r) = true →
  GPS_TABLE w = TList l →
  read_job p w
  = (Ok tt, set_GPS_TABLE (TList (l ++ [r]))
              (add_event (Secho (MsgExif p (row0 r) (row1 r) (row2 r))) w)).
Proof.
  intros Hread Hr Hl. unfold read_job, bind.
  rewrite (read_photo_gps_some _ _ _ Hread w), Hr.
  unfold GPS_TABLE_append. simpl. by rewrite Hl.
Qed.

End Workers.

(** ** The worker loop *)

Section WorkerLoop.
Variable job : string → M unit.
(** The jobs of both workers leave the queue and its counter alone, and
    return or raise. *)
Hypothesis job_queue : ∀ p w, PHOTO_QUEUE (job p w).2 = PHOTO_QUEUE w.
Hypothesis job_tasks : ∀ p w, unfinished_tasks (job p w).2 = unfinished_tasks w.
Hypothesis job_ends : ∀ p w, (job p w).1 ≠ Hang.

Lemma worker_round_empty w :
  PHOTO_QUEUE w = [] → worker_round job w = (Ok false, w).
Proof.
  intros Hq. unfold worker_round, try_except, bind, queue_get. by rewrite Hq.
Qed.

(** A round that takes a path off the queue marks the task done once,
    whether the job returned or raised; an exception of the job other than
    [queue.Empty] leaves the round, and so the loop. *)
Lemma worker_round_task p q n w :
  PHOTO_QUEUE w = p :: q → unfinished_tasks w = S n →
  let w1 := set_PHOTO_QUEUE q (S n) w in
  PHOTO_QUEUE (worker_round job w).2 = q
  ∧ unfinished_tasks (worker_round job w).2 = n
  ∧ match (job p w1).1 with
    | Ok _ => (worker_round job w).1 = Ok true
    | Raise QueueEmpty => (worker_round job w).1 = Ok false
    | Raise e => (worker_round job w).1 = Raise e
    | Hang => False
    end.
Proof.
  intros Hq Hn w1.
  unfold worker_round, try_except, try_finally, bind, queue_get, task_done, ret, raise.
  rewrite Hq, Hn. fold w1.
  pose proof (job_queue p w1) as Hjq. pose proof (job_tasks p w1) as Hjt.
  pose proof (job_ends p w1) as Hje.
  destruct (job p w1) as [[[]|e|] w2]; simpl in *; rewrite ?Hjt; simpl.
  - done.
  - destruct e; simpl; rewrite ?Hjq; done.
  - done.
Qed.

(** Any amount of fuel above the length of the queue gives the same run,
    and that run returns or raises: the loop is never cut short. *)
Lemma worker_loop_fuel n : ∀ w fuel1 fuel2,
  length (PHOTO_QUEUE w) = n → (n < fuel1)%nat → (n < fuel2)%nat →
  worker_loop job fuel1 w = worker_loop job fuel2 w
  ∧ (worker_loop job fuel1 w).1 ≠ Hang.
Proof.
  induction n as [|n IH]; intros w fuel1 fuel2 Hlen H1 H2;
    destruct fuel1 as [|fuel1]; try lia; destruct fuel2 as [|fuel2]; try lia;
    simpl; unfold bind.
  - apply nil_length_inv in Hlen. rewrite (worker_round_empty _ Hlen). done.
  - destruct (PHOTO_QUEUE w) as [|p q] eqn:Hq; [done|]. simpl in Hlen.
    unfold worker_round, try_except, try_finally, bind, queue_get, task_done, ret, raise.
    rewrite Hq.
    set (w1 := set_PHOTO_QUEUE q (unfinished_tasks w) w).
    pose proof (job_queue p w1) as Hjq. pose proof (job_tasks p w1) as Hjt.
    pose proof (job_ends p w1) as Hje.
    destruct (job p w1) as [[[]|e|] w2]; simpl in *; [| |done].
    + destruct (unfinished_tasks w2) as [|k]; simpl; [done|].
      apply IH; simpl; rewrite ?Hjq; lia.
    + destruct (unfinished_tasks w2) as [|k]; simpl; [done|].
      destruct e; simpl; done.
Qed.

Lemma worker_ends w : (worker job w).1 ≠ Hang.
Proof.
  unfold worker.
  apply (worker_loop_fuel (length (PHOTO_QUEUE w)) w _ (S (length (PHOTO_QUEUE w))));
    [done|lia|lia].
Qed.

End WorkerLoop.

(** ** Harvest mode *)

Section Harvest.
Context `{Platform}.

Lemma only_events_queue w w' :
  only_events w w' →
  PHOTO_QUEUE w' = PHOTO_QUEUE w ∧ unfinished_tasks w' = unfinished_tasks w
  ∧ GPS_TABLE w' = GPS_TABLE w ∧ OVERWRITE w' = OVERWRITE w.
Proof. by intros [evs ->]. Qed.

Lemma write_worker_ends w : (write_worker w).1 ≠ Hang.
Proof.
  apply worker_ends; intros p w0;
    destruct (write_photo_gps_only_events p w0) as [Hev Hend]; try done;
    by apply only_events_queue in Hev as (? & ? & ? & ?).
Qed.

Lemma read_job_queue p w :
  PHOTO_QUEUE (read_job p w).2 = PHOTO_QUEUE w
  ∧ unfinished_tasks (read_job p w).2 = unfinished_tasks w
  ∧ (read_job p w).1 ≠ Hang.
Proof.
  unfold read_job, bind, GPS_TABLE_append, ret.
  destruct (read_photo_gps_returns p w) as [[r ->]|[e ->]]; simpl; [|done].
  destruct (truthy_float (row0 r) && truthy (row1 r) && truthy (row2 r)); [|done].
  destruct w as [[l|l] q n ow tr]; done.
Qed.

Lemma read_worker_ends w : (read_worker w).1 ≠ Hang.
Proof. apply worker_ends; intros p w0; apply read_job_queue. Qed.

Lemma set_iter_singleton (r : row) : set_iter [r] = [r].
Proof. apply Permutation_singleton_r, set_iter_perm. Qed.

Lemma set_iter_nil : set_iter [] = [].
Proof. apply Permutation_nil_r, set_iter_perm. Qed.

End Harvest.

(** ** Sets of rows *)

Lemma py_eqb_sym a b : py_eqb a b = py_eqb b a.
Proof.
  destruct a, b; simpl; try done.
  - apply String.eqb_sym.
  - apply Z.eqb_sym.
  - apply eqb_sym.
Qed.

Lemma row_eqb_sym a b : row_eqb a b = row_eqb b a.
Proof.
  unfold row_eqb.
  by rewrite eqb_sym, (py_eqb_sym (row1 a)), (py_eqb_sym (row2 a)), (py_eqb_sym (row3 a)).
Qed.

Lemma row_eqb_csv_refl r :
  from_csv r → (row0 r =? row0 r)%float = true → row_eqb r r = true.
Proof.
  intros (t & c1 & c2 & c3 & ->) Ht. unfold row_eqb, row0, row1, row2, row3 in *.
  simpl in *. by rewrite Ht, !String.eqb_refl.
Qed.

Lemma row_eqb_csv_trans a b c :
  from_csv a → from_csv b → from_csv c →
  row_eqb a c = true → row_eqb b c = true → row_eqb a b = true.
Proof.
  intros (ta & a1 & a2 & a3 & ->) (tb & b1 & b2 & b3 & ->) (tc & c1 & c2 & c3 & ->).
  unfold row_eqb, row0, row1, row2, row3. simpl.
  rewrite !andb_true_iff, !String.eqb_eq.
  intros [[[Ha ->] ->] ->] [[[Hb ->] ->] ->].
  repeat split; try done. rewrite eqb_sym in Hb. by eapply eqb_trans.
Qed.

Lemma set_add_spec acc x :
  (set_add acc x = acc ∧ ∃ y, y ∈ acc ∧ row_eqb y x = true)
  ∨ (set_add acc x = (acc ++ [x])%list ∧ ∀ y, y ∈ acc → row_eqb y x = false).
Proof.
  unfold set_add. destruct (existsb _ acc) eqn:E.
  - left. split; [done|]. apply existsb_exists in E as (y & Hy & Hyx).
    exists y. by rewrite list_elem_of_In.
  - right. split; [done|]. intros y Hy.
    destruct (row_eqb y x) eqn:Hyx; [|done].
    assert (existsb (λ y, row_eqb y x) acc = true) as E'; [|congruence].
    apply existsb_exists. exists y. by rewrite <- list_elem_of_In.
Qed.

Lemma distinct_snoc acc x :
  distinct (acc ++ [x]) ↔ distinct acc ∧ ∀ y, y ∈ acc → row_eqb y x = false.
Proof.
  induction acc as [|a acc IH]; simpl.
  - split; intros _; split; try done; intros y Hy; by apply elem_of_nil in Hy.
  - rewrite IH. split.
    + intros (Ha & Hd & Hx). repeat split; [set_solver|done|].
      intros y [->|Hy]%elem_of_cons; [apply Ha; set_solver|by apply Hx].
    + intros ((Ha & Hd) & Hx). repeat split; [|done|set_solver].
      intros y [Hy| ->%list_elem_of_singleton]%elem_of_app; [by apply Ha|].
      apply Hx. set_solver.
Qed.

Lemma distinct_app_l acc x l :
  distinct (acc ++ x :: l) → ∀ y, y ∈ acc → row_eqb y x = false.
Proof.
  induction acc as [|a acc IH]; simpl.
  - intros _ y Hy. by apply elem_of_nil in Hy.
  - intros [Ha Hd] y [->|Hy]%elem_of_cons; [apply Ha; set_solver|by apply IH].
Qed.

Lemma distinct_perm l l' : l ≡ₚ l' → distinct l → distinct l'.
Proof.
  induction 1 as [|x l l' Hp IH|x y l|l1 l2 l3 _ IH1 _ IH2]; simpl; try done.
  - intros [Hx Hd]. split; [|by apply IH]. intros y Hy. apply Hx. by rewrite Hp.
  - intros (Hy & Hx & Hd). repeat split; [|set_solver|done].
    intros z [->|Hz]%elem_of_cons; [|by apply Hx].
    rewrite row_eqb_sym. apply Hy. set_solver.
  - auto.
Qed.

(** The members of [set(l)] when the set starts from [acc]. *)
Lemma set_members_acc l : ∀ acc,
  distinct acc →
  let s := fold_left set_add l acc in
  distinct s
  ∧ (∀ x, x ∈ s → x ∈ acc ∨ x ∈ l)
  ∧ (∀ x, x ∈ acc → x ∈ s)
  ∧ (∀ x, x ∈ l → x ∈ s ∨ ∃ y, y ∈ s ∧ row_eqb y x = true).
Proof.
  induction l as [|a l IH]; intros acc Hacc; simpl.
  - repeat split; try done; [set_solver|]. intros x Hx. by apply elem_of_nil in Hx.
  - destruct (set_add_spec acc a) as [[-> (y & Hy & Hya)]|[-> Hnew]].
    + destruct (IH acc Hacc) as (Hd & Hsub & Hpre & Hcov).
      repeat split; try done; [set_solver|].
      intros x [->|Hx]%elem_of_cons; [|by apply Hcov].
      right. exists y. split; [by apply Hpre|done].
    + destruct (IH (acc ++ [a])%list) as (Hd & Hsub & Hpre & Hcov).
      { by apply distinct_snoc. }
      repeat split; try done.
      * intros x Hx. destruct (Hsub x Hx) as [Hin|Hin]; set_solver.
      * intros x Hx. apply Hpre. set_solver.
      * intros x [->|Hx]%elem_of_cons; [|by apply Hcov].
        left. apply Hpre. set_solver.
Qed.

Lemma set_members_spec l :
  distinct (set_members l)
  ∧ (∀ x, x ∈ set_members l → x ∈ l)
  ∧ (∀ x, x ∈ l → x ∈ set_members l ∨ ∃ y, y ∈ set_members l ∧ row_eqb y x = true).
Proof.
  destruct (set_members_acc l [] I) as (Hd & Hsub & _ & Hcov).
  repeat split; try done. intros x Hx. destruct (Hsub x Hx) as [Hin|Hin]; [|done].
  by apply elem_of_nil in Hin.
Qed.

(** [set] of the members of a set adds nothing and drops nothing. *)
Lemma set_members_distinct l : ∀ acc,
  distinct (acc ++ l) → fold_left set_add l acc = (acc ++ l)%list.
Proof.
  induction l as [|a l IH]; intros acc Hd; simpl.
  - by rewrite app_nil_r.
  - destruct (set_add_spec acc a) as [[_ (y & Hy & Hya)]|[-> _]].
    + by rewrite (distinct_app_l _ _ _ Hd y Hy) in Hya.
    + rewrite IH; rewrite <- app_assoc; done.
Qed.

(** In a list of distinct CSV rows, the rows equal to one that is equal to
    itself and has a representative in the list are exactly one. *)
Lemma distinct_count l x :
  distinct l → Forall from_csv l → from_csv x →
  (∃ y, y ∈ l ∧ row_eqb y x = true) →
  length (List.filter (λ y, row_eqb y x) l) = 1%nat.
Proof.
  induction l as [|a l IH]; simpl; intros Hd Hcsv Hx (y & Hy & Hyx).
  - by apply elem_of_nil in Hy.
  - destruct Hd as [Ha Hd]. apply Forall_cons in Hcsv as [Hca Hcsv].
    destruct (row_eqb a x) eqn:Hax; simpl.
    + f_equal. apply length_zero_iff_nil.
      destruct (List.filter _ l) as [|z zs] eqn:Hf; [done|].
      assert (In z (List.filter (λ y, row_eqb y x) l)) as Hz by (rewrite Hf; by left).
      apply filter_In in Hz as [Hz Hzx]. apply list_elem_of_In in Hz.
      assert (row_eqb a z = true) as Haz.
      { apply (row_eqb_csv_trans a z x); try done.
        by eapply Forall_forall in Hcsv. }
      by rewrite (Ha z Hz) in Haz.
    + apply IH; try done. exists y. split; [|done].
      apply elem_of_cons in Hy as [->|Hy]; [congruence|done].
Qed.

(** ** Loading and persisting the table *)

Lemma bind_ok {A B} (m : M A) (k : A → M B) w a w1 :
  m w = (Ok a, w1) → (let* x := m in k x) w = k a w1.
Proof. unfold bind. by intros ->. Qed.

Section Csv.
Context `{Platform}.

(** One round of the loop of [load_gps_csv] on a list table. *)
Lemma load_row cells l w :
  GPS_TABLE w = TList l →
  let body :=
    try_except
      (GPS_TABLE_append_lookup ;;;
       let* c0 := index cells 0 in
       let* t := of_option ValueError (float_of_str c0) in
       let* c1 := index cells 1 in
       let* c2 := index cells 2 in
       let* c3 := index cells 3 in
       GPS_TABLE_append (t, PStr c1, PStr c2, PStr c3))
      (λ e, secho (MsgCsvError e)) in
  (body w).1 = Ok tt
  ∧ GPS_TABLE (body w).2 = TList (l ++ from_option (λ r, [r]) [] (parsed_row cells)).
Proof.
  intros Hl. unfold parsed_row.
  cbv [try_except bind index of_option ret raise secho emit GPS_TABLE_append
       GPS_TABLE_append_lookup].
  rewrite Hl.
  destruct cells as [|c0 cells]; simpl; [by rewrite Hl, app_nil_r|].
  destruct (float_of_str c0) as [t|]; simpl.
  2:{ destruct cells as [|? [|? [|? ?]]]; simpl; by rewrite Hl, app_nil_r. }
  destruct cells as [|c1 [|c2 [|c3 cells]]]; simpl; try by rewrite Hl, app_nil_r.
  by rewrite Hl.
Qed.

Lemma load_rows reader : ∀ l w,
  GPS_TABLE w = TList l →
  let loop :=
    for_each reader (λ row,
      try_except
        (GPS_TABLE_append_lookup ;;;
         let* c0 := index row 0 in
         let* t := of_option ValueError (float_of_str c0) in
         let* c1 := index row 1 in
         let* c2 := index row 2 in
         let* c3 := index row 3 in
         GPS_TABLE_append (t, PStr c1, PStr c2, PStr c3))
        (λ e, secho (MsgCsvError e))) in
  (loop w).1 = Ok tt
  ∧ GPS_TABLE (loop w).2 = TList (l ++ omap parsed_row reader).
Proof.
  induction reader as [|cells reader IH]; intros l w Hl; simpl.
  - by rewrite app_nil_r.
  - destruct (load_row cells l w Hl) as [Hok Htab].
    destruct (try_except _ _ w) as [o w1] eqn:Hbody. simpl in Hok, Htab. subst o.
    rewrite (bind_ok _ _ _ _ _ Hbody).
    destruct (IH _ w1 Htab) as [Hok' Htab']. split; [done|].
    rewrite Htab', <- app_assoc. f_equal. f_equal.
    by destruct (parsed_row cells).
Qed.

(** [load_gps_csv] from the initial state of the module. *)
Lemma load_gps_csv_initial gps_csv_path reader :
  csv_reader gps_csv_path = Some reader →
  (load_gps_csv gps_csv_path initial_world).1 = Ok tt
  ∧ GPS_TABLE (load_gps_csv gps_csv_path initial_world).2
    = TSet (set_iter (set_members (omap parsed_row reader))).
Proof.
  intros Hr. unfold load_gps_csv. rewrite Hr.
  rewrite (bind_ok _ _ initial_world reader initial_world eq_refl).
  destruct (load_rows reader [] initial_world eq_refl) as [Hok Htab].
  simpl in Hok, Htab. destruct (for_each reader _ initial_world) as [o w1] eqn:Hloop.
  simpl in Hok, Htab. subst o. rewrite (bind_ok _ _ _ _ _ Hloop).
  simpl. unfold py_set. by rewrite Htab.
Qed.

(** The loop of [write_gps_csv] hands every row to the writer, in order. *)
Lemma write_rows gps_csv_path l : ∀ w,
  let loop :=
    for_each l (λ row,
      try_except (emit (WriteRow gps_csv_path row))
                 (λ e, secho (MsgCsvError e))) in
  loop w = (Ok tt, mkWorld (GPS_TABLE w) (PHOTO_QUEUE w) (unfinished_tasks w)
                     (OVERWRITE w) (trace w ++ map (WriteRow gps_csv_path) l)).
Proof.
  induction l as [|r l IH]; intros w; simpl.
  - unfold ret. destruct w. simpl. by rewrite app_nil_r.
  - unfold bind at 1. cbv [try_except emit]. rewrite IH. simpl.
    by rewrite <- app_assoc.
Qed.

Lemma rows_written_map gps_csv_path l :
  rows_written gps_csv_path (map (WriteRow gps_csv_path) l) = l.
Proof.
  induction l as [|r l IH]; [done|].
  change (rows_written gps_csv_path (map (WriteRow gps_csv_path) (r :: l)))
    with (from_option (λ r', r' :: rows_written gps_csv_path (map (WriteRow gps_csv_path) l))
            (rows_written gps_csv_path (map (WriteRow gps_csv_path) l))
            (if String.eqb gps_csv_path gps_csv_path then Some r else None)).
  by rewrite String.eqb_refl, IH.
Qed.

Lemma write_gps_csv_spec gps_csv_path w :
  open_append gps_csv_path = true →
  let l := set_iter (set_members (rows_of (GPS_TABLE w))) in
  write_gps_csv gps_csv_path w
  = (Ok tt, mkWorld (TSet l) (PHOTO_QUEUE w) (unfinished_tasks w) (OVERWRITE w)
              (trace w ++ map (WriteRow gps_csv_path) l)).
Proof.
  intros Hopen. unfold write_gps_csv. rewrite Hopen. cbv [bind ret py_set].
  by rewrite write_rows.
Qed.

Lemma parsed_row_from_csv cells r : parsed_row cells = Some r → from_csv r.
Proof.
  unfold parsed_row, from_csv.
  destruct cells as [|c0 [|c1 [|c2 [|c3 cells]]]]; try done.
  destruct (float_of_str c0); intros; simplify_eq. eauto.
Qed.

(** C8 (amended): from the initial state, loading a table and persisting
    it at once succeeds; the rows handed to the writer are the rows of the
    table, persisting leaves the table the set it was after the load (the
    same rows, in some order), no two written rows are equal, every written
    row is the tuple of a row of the input, and every tuple of the input
    whose timestamp is not a NaN is equal to exactly one written row. *)
Theorem load_then_persist csv_in csv_out reader :
  csv_reader csv_in = Some reader →
  open_append csv_out = true →
  let w1 := (load_gps_csv csv_in initial_world).2 in
  let w2 := (write_gps_csv csv_out w1).2 in
  let out := rows_written csv_out (events_since w1 w2) in
  (load_gps_csv csv_in initial_world).1 = Ok tt
  ∧ (write_gps_csv csv_out w1).1 = Ok tt
  ∧ out = rows_of (GPS_TABLE w2)
  ∧ rows_of (GPS_TABLE w2) ≡ₚ rows_of (GPS_TABLE w1)
  ∧ distinct out
  ∧ (∀ r, r ∈ out → ∃ cells, cells ∈ reader ∧ parsed_row cells = Some r)
  ∧ (∀ cells r, cells ∈ reader → parsed_row cells = Some r →
       (row0 r =? row0 r)%float = true →
       length (List.filter (λ y, row_eqb y r) out) = 1%nat).
Proof.
  intros Hr Hopen w1 w2 out.
  destruct (load_gps_csv_initial csv_in reader Hr) as [Hload Htab].
  fold w1 in Htab. subst w2 out.
  rewrite (write_gps_csv_spec csv_out w1 Hopen). simpl.
  erewrite events_since_app by reflexivity. rewrite rows_written_map, Htab. simpl.
  set (L := omap parsed_row reader).
  set (S1 := set_iter (set_members L)).
  destruct (set_members_spec L) as (Hd & Hsub & Hcov).
  assert (distinct S1) as Hd1.
  { eapply distinct_perm; [|exact Hd]. symmetry. apply set_iter_perm. }
  assert (set_members S1 = S1) as Hidem by by apply (set_members_distinct S1 []).
  rewrite Hidem.
  assert (set_iter S1 ≡ₚ S1) as Hp by apply set_iter_perm.
  assert (∀ r, r ∈ set_iter S1 ↔ r ∈ set_members L) as Hmem.
  { intros r. rewrite Hp. unfold S1. by rewrite set_iter_perm. }
  assert (∀ r, r ∈ L → from_csv r) as Hcsv.
  { intros r (cells & _ & Hc)%list_elem_of_omap. by eapply parsed_row_from_csv. }
  repeat split; try done.
  - eapply distinct_perm; [|exact Hd1]. by symmetry.
  - intros r Hin. apply Hmem, Hsub in Hin. by apply list_elem_of_omap in Hin.
  - intros cells r Hcells Hparse Hnan.
    assert (r ∈ L) as HrL by (apply list_elem_of_omap; eauto).
    apply distinct_count.
    + eapply distinct_perm; [|exact Hd1]. by symmetry.
    + apply Forall_forall. intros y Hy. apply Hcsv, Hsub, Hmem. done.
    + by apply Hcsv.
    + destruct (Hcov r HrL) as [Hin|(y & Hy & Hyr)].
      * exists r. split; [by apply Hmem|]. apply row_eqb_csv_refl; [by apply Hcsv|done].
      * exists y. split; [by apply Hmem|done].
Qed.

End Csv.

(** ** The read worker and the harvested table *)

(** Console lines are no calls of [set_tags] or of the geocoder and no rows
    for the CSV writer. *)
Lemma console_only_calls (evs : list event) :
  Forall console evs →
  set_tags_calls evs = [] ∧ rg_search_calls evs = []
  ∧ ∀ gps_csv_path, rows_written gps_csv_path evs = [].
Proof.
  induction 1 as [|e evs He _ (IH1 & IH2 & IH3)]; [done|].
  unfold set_tags_calls, rg_search_calls, rows_written in *.
  destruct e; try done; simpl; repeat split; done.
Qed.

Section ReadLoop.
Context `{Platform}.

(** What [read_photo_gps] returns does not depend on the state of the
    module. *)
Lemma read_photo_gps_value p w w' :
  (read_photo_gps p w).1 = (read_photo_gps p w').1.
Proof.
  unfold read_photo_gps, try_except, bind, of_option, secho, emit, ret, raise.
  destruct (get_metadata p) as [meta|]; simpl; [|done].
  destruct (meta !! "EXIF:DateTimeOriginal") as [[s| |]|]; simpl; try done.
  by destruct (strptime_timestamp s).
Qed.

(** Neither does what it prints: one line for a photo that is read, two
    lines for a photo that is not. *)
Lemma read_photo_gps_output p w :
  trace (read_photo_gps p w).2 = (trace w ++ read_output p)%list
  ∧ ((∃ r, (read_photo_gps p w).1 = Ok (Some r)
           ∧ read_output p = [Secho (MsgExif p (row0 r) (row1 r) (row2 r))])
     ∨ (∃ e, (read_photo_gps p w).1 = Ok None
             ∧ read_output p = [Secho (MsgExifFailed p); Print e])).
Proof.
  unfold read_output.
  unfold read_photo_gps, try_except, bind, of_option, secho, emit, ret, raise.
  destruct (get_metadata p) as [meta|]; simpl;
    [|split; [by rewrite <- app_assoc|right; eauto]].
  destruct (meta !! "EXIF:DateTimeOriginal") as [[s| |]|]; simpl;
    try (split; [by rewrite <- app_assoc|right; eauto]).
  destruct (strptime_timestamp s) as [t|]; simpl;
    [|split; [by rewrite <- app_assoc|right; eauto]].
  split; [done|]. left. eexists (_, _, _, _). split; reflexivity.
Qed.

Lemma read_photo_gps_world p w :
  (read_photo_gps p w).2
  = mkWorld (GPS_TABLE w) (PHOTO_QUEUE w) (unfinished_tasks w) (OVERWRITE w)
      (trace w ++ read_output p).
Proof.
  destruct (read_photo_gps_output p w) as [Htr _].
  destruct (read_photo_gps_only_events p w) as [[evs Hw] _].
  rewrite Hw in Htr |- *. simpl in Htr. apply app_inv_head in Htr. by subst evs.
Qed.

Lemma read_output_console p : Forall console (read_output p).
Proof.
  destruct (read_photo_gps_output p initial_world) as [_ [(r & _ & ->)|(e & _ & ->)]];
    repeat constructor.
Qed.

(** [read_job] on a list table: the lines of the read, and the tuple of the
    photo at the end of the list when it is complete. *)
Lemma read_job_list p w l :
  GPS_TABLE w = TList l →
  read_job p w
  = (Ok tt, mkWorld (TList (l ++ from_option (λ r, [r]) [] (harvest_row p)))
              (PHOTO_QUEUE w) (unfinished_tasks w) (OVERWRITE w)
              (trace w ++ read_output p)).
Proof.
  intros Hl. unfold harvest_row. rewrite (read_photo_gps_value p initial_world w).
  destruct (read_photo_gps_output p w) as [Htr _].
  unfold read_job, bind.
  destruct (read_photo_gps_only_events p w) as [[evs Hw] [res Hres]].
  destruct (read_photo_gps p w) as [o w1]. simpl in *. subst o w1. simpl in Htr.
  apply app_inv_head in Htr. subst evs.
  destruct res as [r|]; simpl; [|by rewrite app_nil_r, <- Hl].
  destruct (truthy_float (row0 r) && truthy (row1 r) && truthy (row2 r)); simpl.
  - unfold GPS_TABLE_append. simpl. by rewrite Hl.
  - unfold ret. by rewrite app_nil_r, <- Hl.
Qed.

Lemma read_worker_loop q : ∀ w l,
  PHOTO_QUEUE w = q → GPS_TABLE w = TList l →
  (length q ≤ unfinished_tasks w)%nat →
  let r := worker_loop read_job (S (length q)) w in
  r.1 = Ok tt
  ∧ PHOTO_QUEUE r.2 = []
  ∧ unfinished_tasks r.2 = (unfinished_tasks w - length q)%nat
  ∧ GPS_TABLE r.2 = TList (l ++ omap harvest_row q)
  ∧ OVERWRITE r.2 = OVERWRITE w
  ∧ trace r.2 = (trace w ++ flat_map read_output q)%list.
Proof.
  induction q as [|p q IH]; intros w l Hq Hl Hn.
  - simpl. unfold bind. rewrite (worker_round_empty _ _ Hq). simpl.
    repeat split; try done; [lia|by rewrite app_nil_r|by rewrite app_nil_r].
  - simpl in Hn. destruct (unfinished_tasks w) as [|n] eqn:Hu; [lia|].
    change (worker_loop read_job (S (length (p :: q))) w)
      with ((let* again := worker_round read_job in
             if again then worker_loop read_job (S (length q)) else ret tt) w).
    pose proof (read_job_list p (set_PHOTO_QUEUE q (S n) w) l Hl) as Hjob.
    assert (worker_round read_job w
            = (Ok true, mkWorld (TList (l ++ from_option (λ r, [r]) [] (harvest_row p)))
                          q n (OVERWRITE w) (trace w ++ read_output p))) as Hround.
    { unfold worker_round, try_except, try_finally, bind, queue_get, task_done, ret.
      rewrite Hq, Hu, Hjob. done. }
    rewrite (bind_ok _ _ _ _ _ Hround). cbv beta iota.
    set (w1 := mkWorld _ q n _ _) in *.
    assert (length q ≤ unfinished_tasks w1)%nat as Hle by (simpl; lia).
    pose proof (IH w1 (l ++ from_option (λ r, [r]) [] (harvest_row p))%list
                  eq_refl eq_refl Hle) as IHw.
    cbv zeta in IHw.
    destruct (worker_loop read_job (S (length q)) w1) as [o w2].
    destruct IHw as (Hok & Hq' & Hu' & Hl' & Ho' & Htr).
    clear IH. simpl in *. repeat split; try done.
    + rewrite Hl', <- app_assoc. f_equal. f_equal. by destruct (harvest_row p).
    + by rewrite Htr, <- app_assoc.
Qed.

(** A list of distinct rows that are all the one row [s], equal to itself,
    has one element. *)
Lemma distinct_same (l : list row) (s : row) :
  distinct l → (∀ r, r ∈ l → r = s) → row_eqb s s = true → l ≠ [] → l = [s].
Proof.
  intros Hd Hs Hself Hne. destruct l as [|a [|b l]]; [done| |].
  - f_equal. apply Hs. set_solver.
  - destruct Hd as [Ha _].
    assert (a = s) as -> by (apply Hs; set_solver).
    assert (b = s) as -> by (apply Hs; set_solver).
    rewrite Ha in Hself; [done|set_solver].
Qed.

Lemma read_outputs_console (q : list string) : Forall console (flat_map read_output q).
Proof.
  apply Forall_flat_map, Forall_forall. intros p _. apply read_output_console.
Qed.

(** C7: the table of harvest mode at persist time is a set under
    full-tuple identity.  From a list table and a queue of photos,
    [read_worker] followed by [write_gps_csv] returns, and the rows handed to
    the CSV writer are the table as it then is.  No two of them are equal
    (the no-duplicate invariant); each is one of the samples, that is, of the
    rows already in the list and of the complete tuples of the photos; and
    every sample is in the table itself or is represented there by an entry
    with an equal timestamp, latitude, longitude and altitude: a sample is
    dropped only for an entry equal to it in all four components.  In
    particular, when all the samples are the one tuple [s], equal to itself,
    however many times it was appended, the table is the single entry
    [s]. *)
Theorem harvest_table_no_duplicates gps_csv_path w l :
  GPS_TABLE w = TList l →
  (length (PHOTO_QUEUE w) ≤ unfinished_tasks w)%nat →
  open_append gps_csv_path = true →
  let run := (read_worker ;;; write_gps_csv gps_csv_path) w in
  let samples := (l ++ omap harvest_row (PHOTO_QUEUE w))%list in
  let out := rows_written gps_csv_path (events_since w run.2) in
  run.1 = Ok tt
  ∧ GPS_TABLE run.2 = TSet out
  ∧ distinct out
  ∧ (∀ r, r ∈ out → r ∈ samples)
  ∧ (∀ r, r ∈ samples →
       r ∈ out
       ∨ ∃ y, y ∈ out
              ∧ (row0 y =? row0 r)%float = true
              ∧ py_eqb (row1 y) (row1 r) = true
              ∧ py_eqb (row2 y) (row2 r) = true
              ∧ py_eqb (row3 y) (row3 r) = true)
  ∧ (∀ s, samples ≠ [] → (∀ r, r ∈ samples → r = s) → row_eqb s s = true →
          out = [s]).
Proof.
  intros Hl Hn Hopen. cbv zeta.
  pose proof (read_worker_loop (PHOTO_QUEUE w) w l eq_refl Hl Hn) as Hw.
  cbv zeta in Hw. fold (worker read_job w) in Hw. fold read_worker in Hw.
  destruct (read_worker w) as [o w1] eqn:E1. cbn [fst snd] in Hw.
  destruct Hw as (-> & _ & _ & Ht1 & _ & Htr1).
  rewrite (bind_ok _ _ _ _ _ E1), (write_gps_csv_spec gps_csv_path w1 Hopen).
  cbn [fst snd GPS_TABLE trace]. rewrite Ht1, Htr1. cbn [rows_of].
  set (samples := (l ++ omap harvest_row (PHOTO_QUEUE w))%list).
  set (out := set_iter (set_members samples)).
  rewrite <- app_assoc. erewrite events_since_app by reflexivity.
  destruct (console_only_calls _ (read_outputs_console (PHOTO_QUEUE w))) as (_ & _ & Hrw).
  unfold rows_written in *. rewrite omap_app, Hrw. cbn [app].
  fold (rows_written gps_csv_path (map (WriteRow gps_csv_path) out)).
  rewrite rows_written_map.
  destruct (set_members_spec samples) as (Hd & Hsub & Hcov).
  assert (∀ x, x ∈ out ↔ x ∈ set_members samples) as Hmem.
  { intros x. unfold out. by rewrite set_iter_perm. }
  assert (distinct out) as Hdo.
  { eapply distinct_perm; [|exact Hd]. symmetry. apply set_iter_perm. }
  repeat split; try done.
  - intros r Hr. by apply Hsub, Hmem.
  - intros r Hr. destruct (Hcov r Hr) as [Hin|(y & Hy & Hyr)]; [left; by apply Hmem|].
    right. exists y. split; [by apply Hmem|].
    unfold row_eqb in Hyr. by repeat (apply andb_true_iff in Hyr as [Hyr ?]).
  - intros s Hne Hs Hself. apply distinct_same; try done.
    + intros r Hr. by apply Hs, Hsub, Hmem.
    + destruct samples as [|x xs] eqn:Hx; [done|]. intros Hout.
      destruct (Hcov x) as [Hin|(y & Hy & _)]; [set_solver| |].
      * apply Hmem in Hin. rewrite Hout in Hin. by apply elem_of_nil in Hin.
      * apply Hmem in Hy. rewrite Hout in Hy. by apply elem_of_nil in Hy.
Qed.

End ReadLoop.

(** ** Properties kept by every step *)

Section Preserves.
Context {I : world → Prop}.

Lemma preserves_ret {A} (a : A) : preserves I (ret a).
Proof. by intros w Hw. Qed.

Lemma preserves_raise {A} e : preserves I (raise e : M A).
Proof. by intros w Hw. Qed.

Lemma preserves_of_option {A} e (o : option A) : preserves I (of_option e o).
Proof. destruct o; [apply preserves_ret|apply preserves_raise]. Qed.

Lemma preserves_bind {A B} (m : M A) (k : A → M B) :
  preserves I m → (∀ a, preserves I (k a)) → preserves I (let* x := m in k x).
Proof.
  intros Hm Hk w Hw. unfold bind. specialize (Hm w Hw).
  destruct (m w) as [[a|e|] w']; simpl in *; try done. by apply Hk.
Qed.

Lemma preserves_try_except {A} (m : M A) h :
  preserves I m → (∀ e, preserves I (h e)) → preserves I (try_except m h).
Proof.
  intros Hm Hh w Hw. unfold try_except. specialize (Hm w Hw).
  destruct (m w) as [[a|e|] w']; simpl in *; try done. by apply Hh.
Qed.

Lemma preserves_try_finally {A} (m : M A) f :
  preserves I m → preserves I f → preserves I (try_finally m f).
Proof.
  intros Hm Hf w Hw. unfold try_finally. specialize (Hm w Hw).
  destruct (m w) as [[a|e|] w']; simpl in *; try done.
  - apply preserves_bind; [done| |done]. intros _. apply preserves_ret.
  - apply preserves_bind; [done| |done]. intros _. apply preserves_raise.
Qed.

Lemma preserves_for_each {A} (l : list A) body :
  (∀ x, preserves I (body x)) → preserves I (for_each l body).
Proof.
  intros Hb. induction l as [|x l IH]; simpl; [apply preserves_ret|].
  apply preserves_bind; [apply Hb|done].
Qed.

Lemma preserves_if {A} (b : bool) (m1 m2 : M A) :
  preserves I m1 → preserves I m2 → preserves I (if b then m1 else m2).
Proof. by destruct b. Qed.

End Preserves.

Section BackupKept.
Context `{Platform}.

Lemma backup_kept_add e w :
  (∀ p t ps, e ≠ SetTags p t ps) → backup_kept w → backup_kept (add_event e w).
Proof.
  intros He [Ho Hc]. split; [done|]. intros c. simpl.
  unfold set_tags_calls. rewrite omap_app, elem_of_app.
  intros [Hin|Hin]; [by apply Hc|].
  destruct e; simpl in Hin; try by apply elem_of_nil in Hin.
  by destruct (He photo_path tags params).
Qed.

Lemma backup_kept_events w w' :
  only_events w w' → set_tags_calls (events_since w w') = [] →
  backup_kept w → backup_kept w'.
Proof.
  intros [evs ->] Hno [Ho Hc]. split; [done|]. simpl. intros c.
  erewrite events_since_app in Hno by reflexivity.
  unfold set_tags_calls in *. rewrite omap_app, Hno, app_nil_r. apply Hc.
Qed.

Lemma backup_kept_secho m : preserves backup_kept (secho m).
Proof. intros w Hw. by apply backup_kept_add. Qed.

Lemma backup_kept_set_table f : preserves backup_kept (λ w, (Ok tt, set_GPS_TABLE (f w) w)).
Proof. by intros w Hw. Qed.

Lemma backup_kept_write_photo_gps p : preserves backup_kept (write_photo_gps p).
Proof.
  intros w Hw. destruct (write_photo_gps_only_events p w) as [[evs Hev] _].
  destruct (write_photo_gps_calls p w) as [Hno|(glat & glon & galt & flat & flon & _ & _ & Hcall)].
  - eapply backup_kept_events; [by exists evs|done|done].
  - simpl in Hcall. destruct Hw as [Ho Hc]. rewrite Hev in *.
    erewrite events_since_app in Hcall by reflexivity.
    split; [done|]. simpl. intros c. unfold set_tags_calls in *.
    rewrite omap_app, Hcall, Ho, elem_of_app.
    intros [Hin|Hin%list_elem_of_singleton]; [by apply Hc|by subst c].
Qed.

Lemma backup_kept_read_photo_gps p : preserves backup_kept (read_photo_gps p).
Proof.
  intros w Hw.
  destruct (read_photo_gps_returns p w) as [[r ->]|[e ->]];
    by repeat (apply backup_kept_add; [done|]).
Qed.

Lemma backup_kept_read_job p : preserves backup_kept (read_job p).
Proof.
  apply preserves_bind; [apply backup_kept_read_photo_gps|].
  intros [r|]; [|apply preserves_ret].
  apply preserves_if; [|apply preserves_ret].
  intros w Hw. unfold GPS_TABLE_append. by destruct (GPS_TABLE w).
Qed.

Lemma backup_kept_worker job :
  (∀ p, preserves backup_kept (job p)) → preserves backup_kept (worker job).
Proof.
  intros Hjob.
  assert (∀ fuel, preserves backup_kept (worker_loop job fuel)) as Hloop;
    [|intros w; apply Hloop].
  induction fuel as [|fuel IH]; [by intros w Hw|]. simpl.
  apply preserves_bind.
  - apply preserves_try_except.
    + apply preserves_bind.
      * intros w Hw. unfold queue_get. by destruct (PHOTO_QUEUE w).
      * intros p. apply preserves_bind; [|intros; apply preserves_ret].
        apply preserves_try_finally; [apply Hjob|].
        intros w Hw. unfold task_done. by destruct (unfinished_tasks w).
    + intros []; apply preserves_raise || apply preserves_ret.
  - intros []; [exact IH|apply preserves_ret].
Qed.

Lemma backup_kept_run_threads n target :
  preserves backup_kept target → preserves backup_kept (run_threads n target).
Proof.
  intros Ht. induction n as [|n IH]; simpl; [apply preserves_ret|].
  apply preserves_bind; [|done].
  apply preserves_try_except; [done|]. intros e w Hw. by apply backup_kept_add.
Qed.

Lemma backup_kept_loop_file photos_path : preserves backup_kept (loop_file photos_path).
Proof.
  assert (∀ p, preserves backup_kept (process_file p)) as Hp.
  { intros p. apply preserves_if; [by intros w Hw|apply backup_kept_secho]. }
  unfold loop_file. apply preserves_if; [done|].
  apply preserves_if; [by apply preserves_for_each|apply preserves_ret].
Qed.

Lemma backup_kept_load_gps_csv gps_csv_path : preserves backup_kept (load_gps_csv gps_csv_path).
Proof.
  apply preserves_bind; [apply preserves_of_option|]. intros reader.
  apply preserves_bind; [|intros; apply backup_kept_set_table].
  apply preserves_for_each. intros cells.
  apply preserves_try_except; [|intros; apply backup_kept_secho].
  apply preserves_bind; [|intros _].
  { intros w Hw. unfold GPS_TABLE_append_lookup. by destruct (GPS_TABLE w). }
  repeat (apply preserves_bind; [apply preserves_of_option|]; intros ?).
  intros w Hw. unfold GPS_TABLE_append. by destruct (GPS_TABLE w).
Qed.

Lemma backup_kept_write_gps_csv gps_csv_path : preserves backup_kept (write_gps_csv gps_csv_path).
Proof.
  apply preserves_bind; [apply backup_kept_set_table|]. intros _.
  apply preserves_bind;
    [apply preserves_if; [apply preserves_ret|apply preserves_raise]|]. intros _.
  apply preserves_bind; [by intros w Hw|]. intros t.
  apply preserves_for_each. intros r.
  apply preserves_try_except; [|intros; apply backup_kept_secho].
  intros w Hw. by apply backup_kept_add.
Qed.

(** Whatever the arguments, and whatever [--overwrite] says, [main] leaves
    the global [OVERWRITE] at [False] and never passes
    "-overwrite_original" to [set_tags]. *)
Lemma main_keeps_backup arg1 arg2 overwrite threads :
  backup_kept (main arg1 arg2 overwrite threads initial_world).2.
Proof.
  assert (preserves backup_kept queue_join) as Hjoin.
  { intros w Hw. unfold queue_join. by destruct (unfinished_tasks w). }
  assert (preserves backup_kept (main arg1 arg2 overwrite threads)) as Hmain;
    [|apply Hmain].
  - unfold main. apply preserves_if.
    + apply preserves_bind; [apply backup_kept_load_gps_csv|]. intros _.
      apply preserves_bind; [apply backup_kept_loop_file|]. intros _.
      apply preserves_bind; [|done].
      apply backup_kept_run_threads, backup_kept_worker, backup_kept_write_photo_gps.
    + apply preserves_if; [|apply preserves_ret].
      apply preserves_bind; [apply backup_kept_loop_file|]. intros _.
      apply preserves_bind.
      { apply backup_kept_run_threads, backup_kept_worker, backup_kept_read_job. }
      intros _. apply preserves_bind; [done|]. intros _.
      apply backup_kept_write_gps_csv.
  - split; [done|]. intros c Hc. by apply elem_of_nil in Hc.
Qed.

End BackupKept.

(** ** The program on the concrete platform *)

Module Examples.
Import Demo.

(** C1: [main] is run with [--overwrite] on a table and a photo that match.
    The module-level [OVERWRITE] is still [False] afterwards, and [set_tags]
    receives the parameters ["-P"; ""]: without "-overwrite_original"
    exiftool keeps the original file as a backup instead of overwriting it
    in place. *)
Theorem main_overwrite_flag_dropped :
  let run := main "gps.csv" "a.jpg" true 1 initial_world in
  run.1 = Ok tt
  ∧ OVERWRITE run.2 = false
  ∧ set_tags_calls (trace run.2) = [("a.jpg", tokyo_tags, ["-P"; ""])].
Proof. repeat split; vm_compute; reflexivity. Qed.

(** Had the global been set, the parameter would have been passed. *)
Lemma write_photo_gps_overwrite_global :
  let w := loaded "gps.csv" in
  let w_on := mkWorld (GPS_TABLE w) [] 0 true [] in
  set_tags_calls (trace (write_photo_gps "a.jpg" w_on).2)
  = [("a.jpg", tokyo_tags, ["-P"; "-overwrite_original"])].
Proof. repeat split; vm_compute; reflexivity. Qed.

(** The classifier on the paths of the specification. *)
Example process_file_paths :
  let run := (process_file "/a/b/IMG_0001.JPG" ;;; process_file "/a/b/thumb_0001.jpg" ;;;
              process_file "/a/b/notes.txt") initial_world in
  PHOTO_QUEUE run.2 = ["/a/b/IMG_0001.JPG"]
  ∧ trace run.2 = [Secho (MsgUnsupported "/a/b/thumb_0001.jpg");
                   Secho (MsgUnsupported "/a/b/notes.txt")].
Proof. repeat split; vm_compute; reflexivity. Qed.

(** A file exiftool cannot read costs two lines: the failure line, then the
    exception through [print]. *)
Example unreadable_photo_two_lines :
  read_photo_gps "missing.jpg" initial_world
  = (Ok None, add_event (Print ExifToolError)
                (add_event (Secho (MsgExifFailed "missing.jpg")) initial_world)).
Proof. vm_compute. reflexivity. Qed.

(** The lookup on the table of [gps.csv], 900 seconds after its sample. *)
Example nearest_of_gps_csv :
  get_closest_gps_row 1700000900 (loaded "gps.csv")
  = (Ok (900%float, Some (1700000000%float, PStr "35.0", PStr "139.0", PStr "10")),
     loaded "gps.csv").
Proof. repeat split; vm_compute; reflexivity. Qed.

(** C2, as stated, fails: a table loaded from a CSV file whose only row has
    the timestamp [inf] is not empty, the timestamp 0 is finite, and the
    lookup returns [(infinity, ())], not a row of the table. *)
Lemma nearest_of_infinite_sample :
  rows_of (GPS_TABLE (loaded "inf.csv")) = [(infinity, PStr "1", PStr "2", PStr "3")]
  ∧ is_finite 0 = true
  ∧ get_closest_gps_row 0 (loaded "inf.csv") = (Ok (infinity, None), loaded "inf.csv").
Proof. repeat split; vm_compute; reflexivity. Qed.

(** C3, as stated, fails: the photo is read, has no coordinates, its nearest
    sample is 900 seconds away, and nothing is written, because the
    latitude of the sample is not a number. *)
Lemma accepted_match_not_written :
  let w := loaded "text.csv" in
  (read_photo_gps "a.jpg" w).1
  = Ok (Some (1700000900%float, PStr "", PStr "", PStr ""))
  ∧ (get_closest_gps_row 1700000900 w).1
    = Ok (900%float, Some (1700000000%float, PStr "north", PStr "139.0", PStr "10"))
  ∧ (900 <=? 3600)%float = true
  ∧ set_tags_calls (events_since w (write_photo_gps "a.jpg" w).2) = [].
Proof. repeat split; vm_compute; reflexivity. Qed.

(** C4: a photo taken on the equator holds the latitude 0 and the longitude
    139.5 in its EXIF record, both present and neither of them empty.  The
    guard of [write_photo_gps] tests the two values for truthiness, the
    number 0 is falsy, and the photo is treated as one without GPS data: its
    tags are overwritten with the sample of the table. *)
Theorem zero_latitude_overwritten :
  let w := loaded "gps.csv" in
  get_metadata "equator.jpg"
  = Some (with_gps "2023:11:14 22:28:20" (PInt 0) (PFloat 139.5) (PInt 10))
  ∧ (read_photo_gps "equator.jpg" w).1
    = Ok (Some (1700000900%float, PInt 0, PFloat 139.5, PInt 10))
  ∧ set_tags_calls (events_since w (write_photo_gps "equator.jpg" w).2)
    = [("equator.jpg", tokyo_tags, ["-P"; ""])].
Proof. repeat split; vm_compute; reflexivity. Qed.

(** C5: [main] in inject mode with one thread on a directory of two photos,
    the first write-protected.  The task of the first photo is marked done,
    but the error of [set_tags] leaves [write_photo_gps] and the worker
    loop and ends the thread; the second photo stays in the queue, its task
    unfinished, and [main] never returns from [PHOTO_QUEUE.join()]. *)
Theorem set_tags_error_ends_worker :
  let run := main "gps.csv" "shoot" false 1 initial_world in
  run.1 = Hang
  ∧ PHOTO_QUEUE run.2 = ["shoot/2.jpg"]
  ∧ unfinished_tasks run.2 = 1%nat
  ∧ last (trace run.2) = Some (ThreadException ExifToolError)
  ∧ set_tags_calls (trace run.2) = [("shoot/1.jpg", tokyo_tags, ["-P"; ""])].
Proof. repeat split; vm_compute; reflexivity. Qed.

(** C6, as stated, fails: the nearest sample of the photo is 3601 seconds
    away, the match is rejected, and the geocoder has been called. *)
Lemma rejected_match_geocoded :
  let w := loaded "gps.csv" in
  let new := events_since w (write_photo_gps "far.jpg" w).2 in
  (get_closest_gps_row 1700003601 w).1
  = Ok (3601%float, Some (1700000000%float, PStr "35.0", PStr "139.0", PStr "10"))
  ∧ (3600 <? 3601)%float = true
  ∧ set_tags_calls new = []
  ∧ rg_search_calls new = [(PStr "35.0", PStr "139.0")].
Proof. repeat split; vm_compute; reflexivity. Qed.

(** C8, as stated, fails: the two rows of the input are the same text, and
    two rows are written. *)
Lemma nan_rows_not_collapsed :
  let w := loaded "nan.csv" in
  csv_file "nan.csv" = Some [["nan"; "1"; "2"; "3"]; ["nan"; "1"; "2"; "3"]]
  ∧ rows_written "out.csv" (events_since w (write_gps_csv "out.csv" w).2)
    = [(nan, PStr "1", PStr "2", PStr "3"); (nan, PStr "1", PStr "2", PStr "3")].
Proof. repeat split; vm_compute; reflexivity. Qed.

(** The photo taken exactly 3600 seconds after the sample is written. *)
Lemma threshold_at_3600 :
  let w := loaded "gps.csv" in
  set_tags_calls (events_since w (write_photo_gps "edge.jpg" w).2)
  = [("edge.jpg", tokyo_tags, ["-P"; ""])].
Proof.
  refine (proj2 (write_photo_gps_threshold "edge.jpg" (loaded "gps.csv")
            1700003600 (PStr "") (PStr "") (PStr "")
            3600 1700000000 (PStr "35.0") (PStr "139.0") (PStr "10") _ _ _)
            _ _ _ 35%float 139%float _ _);
    try (vm_compute; reflexivity).
  vm_compute. by eexists.
Defined.

(** A photo with coordinates is left alone. *)
Lemma tagged_photo_untouched :
  let w := loaded "gps.csv" in
  write_photo_gps "tagged.jpg" w
  = (Ok tt, add_event (Secho (MsgExif "tagged.jpg" 1700000900
                                (PFloat 35.5) (PFloat 139.5))) w)
  ∧ set_tags_calls (events_since w (write_photo_gps "tagged.jpg" w).2) = []
  ∧ rg_search_calls (events_since w (write_photo_gps "tagged.jpg" w).2) = [].
Proof.
  apply (write_photo_gps_existing_gps "tagged.jpg" (loaded "gps.csv")
           1700000900 (PFloat 35.5) (PFloat 139.5) (PInt 10));
    vm_compute; reflexivity.
Defined.

(** The rejected photo: the geocoder is called, no address is reported and
    nothing is written. *)
Lemma far_photo_geocoded :
  let w := loaded "gps.csv" in
  let new := events_since w (write_photo_gps "far.jpg" w).2 in
  rg_search_calls new = [(PStr "35.0", PStr "139.0")]
  ∧ ((3600 <? 3601)%float = true →
     addresses_reported new = [] ∧ set_tags_calls new = []).
Proof.
  apply (write_photo_gps_geocodes_first "far.jpg" (loaded "gps.csv")
           1700003601 (PStr "") (PStr "") (PStr "")
           3601 1700000000 (PStr "35.0") (PStr "139.0") (PStr "10"));
    vm_compute; reflexivity.
Defined.

(** Two photos of the same place and time wait in the queue: the table at
    persist time holds their sample once, and one row is written. *)
Lemma trip_harvested_once :
  let s : row := (1700000000%float, PFloat 35, PFloat 139, PInt 10) in
  let w := ((queue_put "trip/1.jpg" ;;; queue_put "trip/2.jpg") initial_world).2 in
  let run := (read_worker ;;; write_gps_csv "out.csv") w in
  omap harvest_row (PHOTO_QUEUE w) = [s; s]
  ∧ run.1 = Ok tt
  ∧ GPS_TABLE run.2 = TSet [s]
  ∧ rows_written "out.csv" (events_since w run.2) = [s].
Proof.
  cbv zeta.
  set (s := (1700000000%float, PFloat 35, PFloat 139, PInt 10)).
  set (w := ((queue_put "trip/1.jpg" ;;; queue_put "trip/2.jpg") initial_world).2).
  assert (omap harvest_row (PHOTO_QUEUE w) = [s; s]) as Hs by (vm_compute; reflexivity).
  destruct (harvest_table_no_duplicates "out.csv" w [])
    as (Hok & Htab & _ & _ & _ & Hone);
    [vm_compute; reflexivity|vm_compute; lia|vm_compute; reflexivity|].
  cbv zeta in Hone. rewrite app_nil_l, Hs in Hone.
  specialize (Hone s).
  rewrite Htab, Hone; [done|done| |vm_compute; reflexivity].
  intros r [->| ->%list_elem_of_singleton]%elem_of_cons; done.
Defined.

(** Three rows for one sample, written [0], [0.0] and [0]: one row is
    written. *)
Lemma dup_rows_collapsed :
  let w1 := loaded "dup.csv" in
  let out := rows_written "out.csv" (events_since w1 (write_gps_csv "out.csv" w1).2) in
  length (List.filter (λ y, row_eqb y (0%float, PStr "1", PStr "2", PStr "3")) out)
  = 1%nat.
Proof.
  refine (proj2 (proj2 (proj2 (proj2 (proj2 (proj2
            (load_then_persist "dup.csv" "out.csv"
               [["0"; "1"; "2"; "3"]; ["0.0"; "1"; "2"; "3"]; ["0"; "1"; "2"; "3"]]
               _ _))))))
            ["0.0"; "1"; "2"; "3"] (0%float, PStr "1", PStr "2", PStr "3") _ _ _);
    try (vm_compute; reflexivity).
  apply list_elem_of_here || (apply list_elem_of_further, list_elem_of_here).
Defined.

(** The photo [a.jpg] against a table whose one sample lies on the equator
    and the prime meridian: the sample is written, with "S" and "W". *)
Lemma equator_sample_refs :
  let w := loaded "equator.csv" in
  ∃ tags params,
    set_tags_calls (events_since w (write_photo_gps "a.jpg" w).2)
    = [("a.jpg", tags, params)]
    ∧ tags !! "EXIF:GPSLatitude" = Some (PStr "0.0")
    ∧ tags !! "EXIF:GPSLongitude" = Some (PStr "0.0")
    ∧ tags !! "EXIF:GPSLatitudeRef" = Some (PStr "S")
    ∧ tags !! "EXIF:GPSLongitudeRef" = Some (PStr "W").
Proof.
  destruct (write_photo_gps_hemisphere "a.jpg" (loaded "equator.csv")
              1700000900 (PStr "") (PStr "") (PStr "")
              900 1700000000 (PStr "0.0") (PStr "0.0") (PStr "10") 0 0)
    as (tags & params & Hcall & Hlat & Hlon & _ & _ & _ & HS & _ & _ & HW & _);
    try (vm_compute; reflexivity).
  { by eexists. }
  exists tags, params. repeat split; try done; [apply HS|apply HW]; reflexivity.
Defined.

(** The same photo against the table of [gps.csv], north of the equator
    and east of Greenwich: "N" and "E". *)
Lemma tokyo_sample_refs :
  let w := loaded "gps.csv" in
  ∃ tags params,
    set_tags_calls (events_since w (write_photo_gps "a.jpg" w).2)
    = [("a.jpg", tags, params)]
    ∧ tags !! "EXIF:GPSLatitudeRef" = Some (PStr "N")
    ∧ tags !! "EXIF:GPSLongitudeRef" = Some (PStr "E").
Proof.
  exists tokyo_tags, ["-P"; ""]. repeat split; vm_compute; reflexivity.
Qed.

(** The photo dated 1970-01-01 00:00:00 has coordinates and is not
    harvested. *)
Lemma epoch_photo_skipped :
  read_job "epoch.jpg" initial_world
  = (Ok tt, add_event (Secho (MsgExif "epoch.jpg" 0 (PFloat 35.5) (PFloat 139.5)))
              initial_world)
  ∧ GPS_TABLE (read_job "epoch.jpg" initial_world).2 = GPS_TABLE initial_world.
Proof.
  apply (read_job_epoch_timestamp "epoch.jpg" initial_world
           0 (PFloat 35.5) (PFloat 139.5) (PInt 10));
    vm_compute; reflexivity.
Defined.

End Examples.

(** * Further properties *)

(** ** More of the float order *)

Lemma SFcompare_Eq_Lt_trans x y z :
  SFcompare x y = Some Eq → SFcompare y z = Some Lt → SFcompare x z = Some Lt.
Proof.
  sf_cases; intros H1 H2; simplify_eq; f_equal;
    rewrite ?CompOpp_Lt, ?CompOpp_Eq, ?lex_Lt, ?lex_Gt, ?lex_Eq in *; lia.
Qed.

Lemma leb_ltb_trans (x y z : float) :
  (x <=? y)%float = true → (y <? z)%float = true → (x <? z)%float = true.
Proof.
  rewrite FloatAxioms.leb_spec, !ltb_Lt. unfold SFleb.
  destruct (SFcompare (Prim2SF x) (Prim2SF y)) as [[]|] eqn:E; try done; intros _.
  - by apply SFcompare_Eq_Lt_trans.
  - by apply SFcompare_Lt_trans.
Qed.

(** A value not below [z] is not at or below a value below [z]. *)
Lemma not_ltb_not_leb (x y z : float) :
  (x <? z)%float = false → (y <? z)%float = true → (x <=? y)%float = false.
Proof.
  intros Hxz Hyz. destruct (x <=? y)%float eqn:Hxy; [|done].
  by rewrite (leb_ltb_trans _ _ _ Hxy Hyz) in Hxz.
Qed.

(** ** Ties and iteration order in the nearest-match scan *)

Lemma first_nearest_step T seen acc x :
  nearest T seen acc → first_nearest T seen acc →
  first_nearest T (seen ++ [x]) (closer T acc x).
Proof.
  destruct acc as [d [r|]]; unfold nearest, first_nearest, closer; simpl.
  - intros (_ & _ & _ & Hmin) (l1 & l2 & -> & Hfirst).
    destruct (time_diff T x <? d)%float eqn:Hlt; simpl.
    + exists (l1 ++ r :: l2)%list, []. split; [done|].
      intros r' Hr'. eapply not_ltb_not_leb; eauto.
    + exists l1, (l2 ++ [x])%list. split; [by rewrite <- app_assoc|done].
  - intros [-> Hmin] _.
    destruct (time_diff T x <? infinity)%float eqn:Hlt; simpl; [|done].
    exists seen, []. split; [done|].
    intros r' Hr'. eapply not_ltb_not_leb; eauto.
Qed.

Lemma first_nearest_fold T l : ∀ seen acc,
  nearest T seen acc → first_nearest T seen acc →
  first_nearest T (seen ++ l) (fold_left (closer T) l acc).
Proof.
  induction l as [|x l IH]; intros seen acc Hn Hf; simpl.
  - by rewrite app_nil_r.
  - replace (seen ++ x :: l)%list with ((seen ++ [x]) ++ l)%list
      by (by rewrite <- app_assoc).
    apply IH; [by apply nearest_step|by apply first_nearest_step].
Qed.

(** X1: among rows with the same smallest time difference the lookup
    returns the one that comes first in the iteration order of the table:
    every row before the returned one has a difference that is not at or
    below [min_diff]. *)
Theorem get_closest_gps_row_first T w d r :
  get_closest_gps_row T w = (Ok (d, Some r), w) →
  ∃ l1 l2,
    rows_of (GPS_TABLE w) = (l1 ++ r :: l2)%list
    ∧ ∀ r', r' ∈ l1 → (time_diff T r' <=? d)%float = false.
Proof.
  unfold get_closest_gps_row. intros [= Hfold].
  pose proof (first_nearest_fold T (rows_of (GPS_TABLE w)) [] _
                (nearest_start T) I) as Hf.
  rewrite Hfold in Hf. exact Hf.
Qed.

(** Two time differences that are equal as floats are the same float. *)
Lemma abs_eqb_eq (a b : float) :
  (abs a =? abs b)%float = true → abs a = abs b.
Proof.
  intros E%eqb_Eq. rewrite <- (SF2Prim_Prim2SF (abs a)), <- (SF2Prim_Prim2SF (abs b)).
  f_equal. rewrite !abs_spec in *.
  destruct (Prim2SF a) as [[]|[]| |[] ? ?], (Prim2SF b) as [[]|[]| |[] ? ?];
    cbn [SFabs] in *; try done;
    rewrite SFcompare_finite in E; simplify_eq;
    match goal with H : lex _ _ _ _ = Eq |- _ => apply lex_Eq in H as [-> ->] end;
    done.
Qed.

Lemma nearest_perm T l l' d c d' c' :
  l ≡ₚ l' → nearest T l (d, c) → nearest T l' (d', c') →
  d = d' ∧ (is_Some c ↔ is_Some c').
Proof.
  intros Hp. unfold nearest. simpl.
  destruct c as [r|], c' as [r'|].
  - intros (Hin & -> & Hfin & Hmin) (Hin' & -> & Hfin' & Hmin').
    split; [|by split; eauto].
    apply abs_eqb_eq. unfold time_diff in *.
    assert ((abs (T - row0 r) <=? abs (T - row0 r'))%float = true) as H1.
    { apply not_ltb_leb; [by eapply ltb_not_nan|by eapply ltb_not_nan|].
      apply Hmin. by rewrite Hp. }
    assert ((abs (T - row0 r') <=? abs (T - row0 r))%float = true) as H2.
    { apply not_ltb_leb; [by eapply ltb_not_nan|by eapply ltb_not_nan|].
      apply Hmin'. by rewrite <- Hp. }
    rewrite FloatAxioms.leb_spec in H1, H2. apply eqb_Eq. unfold SFleb in *.
    destruct (SFcompare (Prim2SF (abs (T - row0 r))) (Prim2SF (abs (T - row0 r'))))
      as [[]|] eqn:E; try done.
    apply SFcompare_Lt_Gt in E. by rewrite E in H2.
  - intros (Hin & -> & Hfin & _) (-> & Hmin').
    rewrite Hp in Hin. by rewrite (Hmin' r Hin) in Hfin.
  - intros (-> & Hmin) (Hin' & -> & Hfin' & _).
    rewrite <- Hp in Hin'. by rewrite (Hmin r' Hin') in Hfin'.
  - intros [-> _] [-> _]. split; [done|]. by split; intros [? ?].
Qed.

(** X2: the iteration order of the table does not change [min_diff], nor
    whether a row is found: two tables with the same rows in different
    orders give the same time difference, so the same verdict of the
    3600-second test; only the row returned among ties can differ. *)
Theorem get_closest_gps_row_order T w w' :
  rows_of (GPS_TABLE w) ≡ₚ rows_of (GPS_TABLE w') →
  ∃ d c c',
    get_closest_gps_row T w = (Ok (d, c), w)
    ∧ get_closest_gps_row T w' = (Ok (d, c'), w')
    ∧ (is_Some c ↔ is_Some c').
Proof.
  intros Hp. unfold get_closest_gps_row.
  pose proof (nearest_fold T (rows_of (GPS_TABLE w)) [] _ (nearest_start T)) as Hn.
  pose proof (nearest_fold T (rows_of (GPS_TABLE w')) [] _ (nearest_start T)) as Hn'.
  destruct (fold_left _ (rows_of (GPS_TABLE w)) _) as [d c].
  destruct (fold_left _ (rows_of (GPS_TABLE w')) _) as [d' c'].
  simpl in Hn, Hn'.
  destruct (nearest_perm T _ _ d c d' c' Hp Hn Hn') as [-> Hsome].
  by exists d', c, c'.
Qed.

(** ** Every way through [write_photo_gps] *)

Section InjectPaths.
Context `{Platform}.

Lemma get_closest_gps_row_some t w d r :
  (get_closest_gps_row t w).1 = Ok (d, Some r) →
  r ∈ rows_of (GPS_TABLE w) ∧ d = time_diff t r ∧ (d <? infinity)%float = true
  ∧ ∀ r', r' ∈ rows_of (GPS_TABLE w) → (time_diff t r' <? d)%float = false.
Proof.
  unfold get_closest_gps_row. simpl. intros [= Hfold].
  pose proof (nearest_fold t (rows_of (GPS_TABLE w)) [] _ (nearest_start t)) as Hn.
  rewrite Hfold in Hn. exact Hn.
Qed.

(** Either the call ends after the read, having done what the read does
    and nothing more, or a sample was matched and the call goes on as
    [matched_run] says. *)
Lemma write_photo_gps_paths p w :
  let o := (write_photo_gps p w).1 in
  let new := events_since w (write_photo_gps p w).2 in
  (write_photo_gps p w = (Ok tt, (read_photo_gps p w).2)
   ∧ ((∃ t lat lon, new = [Secho (MsgExif p t lat lon)])
      ∨ ∃ e, new = [Secho (MsgExifFailed p); Print e]))
  ∨ ∃ t lat lon alt d ts glat glon galt,
      (read_photo_gps p w).1 = Ok (Some (t, lat, lon, alt))
      ∧ truthy lat && truthy lon = false
      ∧ (get_closest_gps_row t w).1 = Ok (d, Some (ts, glat, glon, galt))
      ∧ new = Secho (MsgExif p t lat lon)
              :: (matched_run p (OVERWRITE w) d ts glat glon galt).1
      ∧ o = (matched_run p (OVERWRITE w) d ts glat glon galt).2.
Proof.
  simpl. destruct (read_photo_gps_returns p w) as [[[[[t lat] lon] alt] Hr]|[e Hr]].
  2:{ rewrite (write_photo_gps_unreadable _ _ _ Hr), Hr. left. split; [done|].
      right. exists e. by new_events. }
  assert ((read_photo_gps p w).1 = Ok (Some (t, lat, lon, alt))) as Hread
    by by rewrite Hr.
  destruct (truthy lat && truthy lon) eqn:Hgps.
  { rewrite (write_photo_gps_skip _ _ _ _ _ _ Hread Hgps), Hr. left. split; [done|].
    left. exists t, lat, lon. by new_events. }
  destruct (get_closest_gps_row_returns t w) as (d & c & Hc).
  assert ((get_closest_gps_row t w).1 = Ok (d, c)) as Hnear by by rewrite Hc.
  destruct c as [[[[ts glat] glon] galt]|].
  2:{ rewrite (write_photo_gps_no_sample _ _ _ _ _ _ _ Hread Hgps Hnear), Hr.
      left. split; [done|]. left. exists t, lat, lon. by new_events. }
  right. exists t, lat, lon, alt, d, ts, glat, glon, galt.
  do 3 (split; [done|]).
  rewrite (write_photo_gps_matched _ _ _ _ _ _ _ _ _ _ _ Hread Hgps Hnear).
  unfold matched_run. run_inject.
  destruct (fromtimestamp ts); simpl; [|by new_events].
  destruct (rg_search glat glon); simpl; [|by new_events].
  destruct (3600 <? d)%float; simpl; [by new_events|].
  destruct (py_float float_of_str glat); simpl; [|by new_events].
  destruct (py_float float_of_str glon); simpl; [|by new_events].
  destruct (set_tags_ok p); simpl; by new_events.
Qed.

Ltac matched_cases :=
  unfold matched_run in *;
  repeat match goal with
  | |- context [if ?b then _ else _] => destruct b eqn:?
  | |- context [match ?o with Some _ => _ | None => _ end] => destruct o eqn:?
  end; simpl in *.

(** X3: when [write_photo_gps] calls [set_tags], it does so once, on the
    photo it was given and with "-P" first among the parameters; the photo was
    read and did not have a truthy latitude and longitude; and the latitude,
    longitude and altitude written are those of a row of the table whose
    time difference to the photo is at most 3600 seconds and which no row of
    the table undercuts. *)
Theorem write_photo_gps_writes_nearest p w q tags params :
  (q, tags, params) ∈ set_tags_calls (events_since w (write_photo_gps p w).2) →
  set_tags_calls (events_since w (write_photo_gps p w).2) = [(q, tags, params)]
  ∧ q = p
  ∧ params = ["-P"; if OVERWRITE w then "-overwrite_original" else ""]
  ∧ ∃ t lat lon alt r,
      (read_photo_gps p w).1 = Ok (Some (t, lat, lon, alt))
      ∧ truthy lat && truthy lon = false
      ∧ r ∈ rows_of (GPS_TABLE w)
      ∧ (time_diff t r <=? 3600)%float = true
      ∧ (∀ r', r' ∈ rows_of (GPS_TABLE w) →
           (time_diff t r' <? time_diff t r)%float = false)
      ∧ tags !! "EXIF:GPSLatitude" = Some (row1 r)
      ∧ tags !! "EXIF:GPSLongitude" = Some (row2 r)
      ∧ tags !! "EXIF:GPSAltitude" = Some (row3 r).
Proof.
  intros Hin.
  destruct (write_photo_gps_paths p w)
    as [[_ [(? & ? & ? & Hnew)|(? & Hnew)]]
       |(t & lat & lon & alt & d & ts & glat & glon & galt
         & Hread & Hgps & Hnear & Hnew & _)];
    simpl in Hnew; rewrite Hnew in Hin |- *;
    try by apply elem_of_nil in Hin.
  destruct (get_closest_gps_row_some _ _ _ _ Hnear) as (Hr & -> & Hfin & Hmin).
  revert Hin. matched_cases; intros Hin; try by apply elem_of_nil in Hin.
  all: apply list_elem_of_singleton in Hin; simplify_eq.
  all: do 3 (split; [done|]).
  all: exists t, lat, lon, alt, (ts, glat, glon, galt).
  all: repeat split; try done.
  all: apply not_ltb_leb; [done|by eapply ltb_not_nan|done].
Qed.

(** X4: with an empty table every photo is passed over: the call returns,
    and it has done what [read_photo_gps] does and nothing more (the one
    console line of a photo that is read, or the two lines of a photo that
    is not); neither the geocoder nor [set_tags] is called. *)
Theorem write_photo_gps_empty_table p w :
  rows_of (GPS_TABLE w) = [] →
  let new := events_since w (write_photo_gps p w).2 in
  write_photo_gps p w = (Ok tt, (read_photo_gps p w).2)
  ∧ ((∃ t lat lon, new = [Secho (MsgExif p t lat lon)])
     ∨ ∃ e, new = [Secho (MsgExifFailed p); Print e])
  ∧ set_tags_calls new = []
  ∧ rg_search_calls new = [].
Proof.
  intros Hempty.
  destruct (write_photo_gps_paths p w)
    as [[Hrun Hnew]|(t & lat & lon & alt & d & ts & glat & glon & galt
            & _ & _ & Hnear & _)].
  - simpl in *. do 2 (split; [done|]).
    destruct Hnew as [(? & ? & ? & ->)|(? & ->)]; done.
  - destruct (get_closest_gps_row_some _ _ _ _ Hnear) as (Hr & _).
    rewrite Hempty in Hr. by apply elem_of_nil in Hr.
Qed.

(** X5: [write_photo_gps] raises only after the photo has been read, has
    passed the guard and a sample has been matched, and only because one of
    four steps failed, in this order: the conversion of the sample's
    timestamp to a date (before the geocoder is called), the geocoder, the
    conversion of the sample's latitude or longitude to a float (for an
    accepted match only), or the write by exiftool.  In the first three
    cases [set_tags] has not been called, and "Done" is never printed. *)
Theorem write_photo_gps_raises p w e :
  (write_photo_gps p w).1 = Raise e →
  let new := events_since w (write_photo_gps p w).2 in
  Secho (MsgDone p) ∉ new
  ∧ ∃ t lat lon alt d ts glat glon galt,
      (read_photo_gps p w).1 = Ok (Some (t, lat, lon, alt))
      ∧ truthy lat && truthy lon = false
      ∧ (get_closest_gps_row t w).1 = Ok (d, Some (ts, glat, glon, galt))
      ∧ ((fromtimestamp ts = false
          ∧ rg_search_calls new = [] ∧ set_tags_calls new = [])
         ∨ (fromtimestamp ts = true ∧ rg_search glat glon = None
            ∧ set_tags_calls new = [])
         ∨ (fromtimestamp ts = true ∧ is_Some (rg_search glat glon)
            ∧ (3600 <? d)%float = false
            ∧ (py_float float_of_str glat = None ∨ py_float float_of_str glon = None)
            ∧ set_tags_calls new = [])
         ∨ (fromtimestamp ts = true ∧ is_Some (rg_search glat glon)
            ∧ (3600 <? d)%float = false
            ∧ is_Some (py_float float_of_str glat)
            ∧ is_Some (py_float float_of_str glon)
            ∧ set_tags_ok p = false)).
Proof.
  intros Hraise new. subst new.
  pose proof (write_photo_gps_paths p w) as Hp. cbv zeta in Hp.
  destruct Hp as [[Hok _]
                 |(t & lat & lon & alt & d & ts & glat & glon & galt
                   & Hread & Hgps & Hnear & Hnew & Ho)];
    [by rewrite Hok in Hraise|].
  rewrite Hnew. rewrite Hraise in Ho. clear Hnew Hraise.
  assert (∀ evs, Secho (MsgDone p) ∉ evs ↔ Forall (λ e, Secho (MsgDone p) ≠ e) evs)
    as Hnot.
  { intros evs. rewrite Forall_forall. split; [by intros ? ? ? <-|].
    intros Hall Hin. by apply (Hall _ Hin). }
  unfold matched_run in *.
  destruct (fromtimestamp ts) eqn:Hdate; cycle 1.
  { split; [apply Hnot; by repeat constructor|].
    exists t, lat, lon, alt, d, ts, glat, glon, galt. do 3 (split; [done|]).
    left. by rewrite Hdate. }
  destruct (rg_search glat glon) as [g|] eqn:Hg; cycle 1.
  { split; [apply Hnot; by repeat constructor|].
    exists t, lat, lon, alt, d, ts, glat, glon, galt. do 3 (split; [done|]).
    right. left. by rewrite Hdate, Hg. }
  destruct (3600 <? d)%float eqn:Hacc; [done|].
  destruct (py_float float_of_str glat) as [flat|] eqn:Hlat; cycle 1.
  { split; [apply Hnot; by repeat constructor|].
    exists t, lat, lon, alt, d, ts, glat, glon, galt. do 3 (split; [done|]).
    right. right. left. rewrite Hdate, Hg, Hacc, Hlat. eauto 10. }
  destruct (py_float float_of_str glon) as [flon|] eqn:Hlon; cycle 1.
  { split; [apply Hnot; by repeat constructor|].
    exists t, lat, lon, alt, d, ts, glat, glon, galt. do 3 (split; [done|]).
    right. right. left. rewrite Hdate, Hg, Hacc, Hlon. eauto 10. }
  destruct (set_tags_ok p) eqn:Hok; [done|].
  split; [apply Hnot; by repeat constructor|].
  exists t, lat, lon, alt, d, ts, glat, glon, galt. do 3 (split; [done|]).
  right. right. right. rewrite Hdate, Hg, Hacc, Hlat, Hlon. eauto 10.
Qed.

(** X6: "Done" is printed for a photo exactly when [write_photo_gps]
    returned and [set_tags] had been called, and then [set_tags] succeeded:
    the program never reports a write it did not make. *)
Theorem write_photo_gps_done p w :
  let new := events_since w (write_photo_gps p w).2 in
  (Secho (MsgDone p) ∈ new ↔ (write_photo_gps p w).1 = Ok tt ∧ set_tags_calls new ≠ [])
  ∧ (Secho (MsgDone p) ∈ new → set_tags_ok p = true).
Proof.
  simpl.
  destruct (write_photo_gps_paths p w)
    as [[Hok Hnew]
       |(t & lat & lon & alt & d & ts & glat & glon & galt
         & Hread & Hgps & Hnear & Hnew & Ho)];
    simpl in *.
  { assert (Secho (MsgDone p) ∉ events_since w (write_photo_gps p w).2
            ∧ set_tags_calls (events_since w (write_photo_gps p w).2) = []) as [Hnot Hno].
    { destruct Hnew as [(? & ? & ? & ->)|(? & ->)]; split; try done;
        repeat (apply not_elem_of_cons; split; [done|]); apply not_elem_of_nil. }
    split; [|done]. split; [done|]. by intros [_ ?]. }
  rewrite Hnew.
  rewrite Ho. clear Hnew Ho.
  matched_cases;
    (split; [split|]);
    try (intros Hin; exfalso; revert Hin;
         repeat (apply not_elem_of_cons; split; [done|]); apply not_elem_of_nil);
    try (by intros [? ?]); try done.
  all: intros _; do 5 apply list_elem_of_further; apply list_elem_of_here.
Qed.

(** X7: whichever way [write_photo_gps] ends, it changes nothing in the
    module's state but the trace: the table, the queue with its counter of
    unfinished tasks and the global [OVERWRITE] are as before, and the events
    that were there stay in front. *)
Theorem write_photo_gps_frame p w :
  let r := write_photo_gps p w in
  GPS_TABLE r.2 = GPS_TABLE w
  ∧ PHOTO_QUEUE r.2 = PHOTO_QUEUE w
  ∧ unfinished_tasks r.2 = unfinished_tasks w
  ∧ OVERWRITE r.2 = OVERWRITE w
  ∧ trace r.2 = (trace w ++ events_since w r.2)%list.
Proof.
  simpl. destruct (write_photo_gps_only_events p w) as [[evs Hev] Hend].
  rewrite Hev. repeat split; try done. simpl. by new_events.
Qed.

End InjectPaths.

(** ** Rounds of the workers *)

Section Rounds.
Context `{Platform}.

Lemma write_photo_gps_job p w :
  PHOTO_QUEUE (write_photo_gps p w).2 = PHOTO_QUEUE w
  ∧ unfinished_tasks (write_photo_gps p w).2 = unfinished_tasks w
  ∧ (write_photo_gps p w).1 ≠ Hang.
Proof.
  destruct (write_photo_gps_only_events p w) as [Hev Hend].
  by apply only_events_queue in Hev as (? & ? & ? & ?).
Qed.

(** The exceptions [write_photo_gps] can raise; [queue.Empty] is not among
    them. *)
Lemma write_photo_gps_raises_known p w e :
  (write_photo_gps p w).1 = Raise e →
  e = OSError ∨ e = GeocoderError ∨ e = ValueError ∨ e = ExifToolError.
Proof.
  intros Hraise.
  destruct (write_photo_gps_paths p w)
    as [[Hok _]
       |(t & lat & lon & alt & d & ts & glat & glon & galt & _ & _ & _ & _ & Ho)];
    simpl in *; [by rewrite Hok in Hraise|].
  rewrite Hraise in Ho. revert Ho. unfold matched_run.
  repeat match goal with
  | |- context [if ?b then _ else _] => destruct b
  | |- context [match ?o with Some _ => _ | None => _ end] => destruct o
  end; simpl; intros; simplify_eq; eauto.
Qed.

(** X8: a round of the write worker that finds a path in the queue takes
    it off and marks its task done once, whatever [write_photo_gps] does with
    it; the round goes on to the next path when [write_photo_gps] returned,
    and an exception of [write_photo_gps] leaves the round (and with it the
    loop of the worker) after the task has been marked. *)
Theorem write_worker_round p q n w :
  PHOTO_QUEUE w = p :: q → unfinished_tasks w = S n →
  let job := write_photo_gps p (set_PHOTO_QUEUE q (S n) w) in
  let r := worker_round write_photo_gps w in
  PHOTO_QUEUE r.2 = q
  ∧ unfinished_tasks r.2 = n
  ∧ trace r.2 = trace job.2
  ∧ (job.1 = Ok tt → r.1 = Ok true)
  ∧ (∀ e, job.1 = Raise e → r.1 = Raise e).
Proof.
  intros Hq Hn. simpl.
  destruct (write_photo_gps_job p (set_PHOTO_QUEUE q (S n) w)) as (Hjq & Hjt & Hje).
  pose proof (write_photo_gps_raises_known p (set_PHOTO_QUEUE q (S n) w)) as Hk.
  unfold worker_round, try_except, try_finally, bind, queue_get, task_done, ret, raise.
  rewrite Hq, Hn.
  destruct (write_photo_gps p (set_PHOTO_QUEUE q (S n) w)) as [[[]|e|] w2];
    simpl in *; rewrite ?Hjt; simpl; [done| |done].
  destruct (Hk e eq_refl) as [->|[->|[->| ->]]]; simpl; rewrite ?Hjq;
    repeat split; try done; by intros ? [= ->].
Qed.

End Rounds.

(** ** The read worker *)

Section ReadWorker.
Context `{Platform}.

(** X9: on a list table and with a queue whose counter covers its paths,
    the read worker returns; it has emptied the queue and marked one task
    done per path, appended to the table, in the order of the queue, the
    tuples of the photos that have a truthy timestamp, latitude and
    longitude, and nothing for the others; it has left [OVERWRITE] alone and
    called neither [set_tags] nor the geocoder. *)
Theorem read_worker_harvests w l :
  GPS_TABLE w = TList l →
  (length (PHOTO_QUEUE w) ≤ unfinished_tasks w)%nat →
  let r := read_worker w in
  r.1 = Ok tt
  ∧ PHOTO_QUEUE r.2 = []
  ∧ unfinished_tasks r.2 = (unfinished_tasks w - length (PHOTO_QUEUE w))%nat
  ∧ GPS_TABLE r.2 = TList (l ++ omap harvest_row (PHOTO_QUEUE w))
  ∧ OVERWRITE r.2 = OVERWRITE w
  ∧ set_tags_calls (events_since w r.2) = []
  ∧ rg_search_calls (events_since w r.2) = [].
Proof.
  intros Hl Hn. simpl. unfold read_worker, worker.
  destruct (read_worker_loop (PHOTO_QUEUE w) w l eq_refl Hl Hn)
    as (Hok & Hq & Hu & Ht & Ho & Htr).
  destruct (console_only_calls _ (read_outputs_console (PHOTO_QUEUE w)))
    as (Hst & Hrg & _).
  simpl in *. repeat split; try done; by rewrite (events_since_app _ _ _ Htr).
Qed.

(** X10: the loop of a worker is never cut short: with any number of
    rounds above the length of the queue it runs as the worker does, and
    the worker ends, by returning or with an exception. *)
Theorem workers_end w fuel :
  (length (PHOTO_QUEUE w) < fuel)%nat →
  worker_loop write_photo_gps fuel w = write_worker w
  ∧ (write_worker w).1 ≠ Hang
  ∧ worker_loop read_job fuel w = read_worker w
  ∧ (read_worker w).1 ≠ Hang.
Proof.
  intros Hfuel. unfold write_worker, read_worker, worker.
  destruct (worker_loop_fuel write_photo_gps
              (λ p w, proj1 (write_photo_gps_job p w))
              (λ p w, proj1 (proj2 (write_photo_gps_job p w)))
              (λ p w, proj2 (proj2 (write_photo_gps_job p w)))
              (length (PHOTO_QUEUE w)) w fuel (S (length (PHOTO_QUEUE w)))
              eq_refl Hfuel (Nat.lt_succ_diag_r _)) as [Hw Hwe].
  destruct (worker_loop_fuel read_job
              (λ p w, proj1 (read_job_queue p w))
              (λ p w, proj1 (proj2 (read_job_queue p w)))
              (λ p w, proj2 (proj2 (read_job_queue p w)))
              (length (PHOTO_QUEUE w)) w fuel (S (length (PHOTO_QUEUE w)))
              eq_refl Hfuel (Nat.lt_succ_diag_r _)) as [Hr Hre].
  rewrite <- Hw, <- Hr. done.
Qed.

End ReadWorker.

(** ** The classifier *)

Section Strings.
Local Arguments String.append !_ _ / : simpl nomatch.

Lemma substring_all (s : string) : String.substring 0 (String.length s) s = s.
Proof. induction s as [|c s IH]; simpl; [done|by rewrite IH]. Qed.

Lemma substring_skip (pre suf : string) :
  String.substring (String.length pre) (String.length suf) (pre ++ suf) = suf.
Proof. induction pre as [|c pre IH]; simpl; [apply substring_all|done]. Qed.

Lemma string_length_app (a b : string) :
  String.length (a ++ b) = (String.length a + String.length b)%nat.
Proof. induction a as [|c a IH]; simpl; [done|by rewrite IH]. Qed.

Lemma substring_split (s : string) : ∀ m,
  (m ≤ String.length s)%nat →
  s = String.substring 0 m s ++ String.substring m (String.length s - m) s.
Proof.
  induction s as [|c s IH]; intros [|m] Hm; simpl in *; try lia; try done.
  - by rewrite substring_all.
  - f_equal. apply IH. lia.
Qed.

(** [s.endswith(suffix)] *)
Lemma endswith_spec (s suffix : string) :
  endswith s suffix = true ↔ ∃ pre : string, s = pre ++ suffix.
Proof.
  unfold endswith. rewrite andb_true_iff, Nat.leb_le, String.eqb_eq. split.
  - intros [Hle Hsub]. exists (String.substring 0 (String.length s - String.length suffix) s).
    pose proof (substring_split s (String.length s - String.length suffix)) as Hs.
    replace (String.length s - (String.length s - String.length suffix))%nat
      with (String.length suffix) in Hs by lia.
    rewrite Hsub in Hs. apply Hs. lia.
  - intros [pre ->]. rewrite string_length_app. split; [lia|].
    replace (String.length pre + String.length suffix - String.length suffix)%nat
      with (String.length pre) by lia.
    apply substring_skip.
Qed.

Lemma prefix_spec (needle s : string) :
  String.prefix needle s = true ↔ ∃ b : string, s = needle ++ b.
Proof.
  revert s. induction needle as [|c needle IH]; intros s.
  - split; [intros _; by exists s|by destruct s].
  - destruct s as [|c' s]; simpl; [split; [done|by intros [? ?]]|].
    destruct (Ascii.ascii_dec c c') as [->|Hne].
    + rewrite IH. split; intros [b Hb]; exists b; [by rewrite Hb|by injection Hb].
    + split; [done|]. intros [b Hb]. injection Hb as ? ?. done.
Qed.

(** [needle in s] *)
Lemma str_contains_spec (needle s : string) :
  str_contains needle s = true ↔ ∃ a b : string, s = a ++ needle ++ b.
Proof.
  induction s as [|c s IH].
  - change (str_contains needle "") with (String.prefix needle "" || false).
    rewrite orb_true_iff, prefix_spec. split.
    + intros [[b Hb]|?]; [|done]. by exists "", b.
    + intros (a & b & Hab). left. destruct a; [by exists b|done].
  - change (str_contains needle (String c s))
      with (String.prefix needle (String c s) || str_contains needle s).
    rewrite orb_true_iff, prefix_spec, IH. split.
    + intros [[b Hb]|(a & b & ->)]; [by exists "", b|].
      by exists (String c a), b.
    + intros (a & b & Hab). destruct a as [|c' a]; simpl in Hab.
      * left. by exists b.
      * right. injection Hab as -> ->. by exists a, b.
Qed.

End Strings.

Section Classifier.
Context `{Platform}.

Lemma eligible_spec p :
  eligible p = true
  ↔ (∃ ext pre : string, ext ∈ EXT ∧ str_lower p = pre ++ ext)
    ∧ ¬ ∃ a b : string, str_lower p = a ++ "thumb" ++ b.
Proof.
  unfold eligible. rewrite andb_true_iff, negb_true_iff, existsb_exists.
  rewrite <- not_true_iff_false, str_contains_spec.
  split; intros [Hext Hthumb]; (split; [|done]).
  - destruct Hext as (ext & Hin & (pre & Hpre)%endswith_spec).
    exists ext, pre. by rewrite list_elem_of_In.
  - destruct Hext as (ext & pre & Hin & Hpre). exists ext.
    rewrite <- list_elem_of_In, endswith_spec. eauto.
Qed.

(** X11: [process_file] puts a path, as given, at the end of the queue
    and counts one more unfinished task when the lowercased path ends with one
    of the extensions of [EXT] and does not contain "thumb"; otherwise it
    prints the "unsupported" line and leaves the queue alone.  It never does
    both and never fails. *)
Theorem process_file_spec p w :
  let ok := (∃ ext pre : string, ext ∈ EXT ∧ str_lower p = pre ++ ext)
            ∧ ¬ ∃ a b : string, str_lower p = a ++ "thumb" ++ b in
  (ok → process_file p w
        = (Ok tt, set_PHOTO_QUEUE (PHOTO_QUEUE w ++ [p]) (S (unfinished_tasks w)) w))
  ∧ (¬ ok → process_file p w = (Ok tt, add_event (Secho (MsgUnsupported p)) w)).
Proof.
  simpl. rewrite <- eligible_spec. unfold process_file, eligible.
  destruct (existsb _ EXT && negb _); split; done.
Qed.

Lemma process_file_eligible p w :
  process_file p w
  = if eligible p
    then (Ok tt, set_PHOTO_QUEUE (PHOTO_QUEUE w ++ [p]) (S (unfinished_tasks w)) w)
    else (Ok tt, add_event (Secho (MsgUnsupported p)) w).
Proof. unfold process_file, eligible. by destruct (existsb _ EXT && negb _). Qed.

Lemma process_files l : ∀ w,
  let r := for_each l process_file w in
  r.1 = Ok tt
  ∧ PHOTO_QUEUE r.2 = (PHOTO_QUEUE w ++ List.filter eligible l)%list
  ∧ unfinished_tasks r.2 = (unfinished_tasks w + length (List.filter eligible l))%nat
  ∧ trace r.2 = (trace w ++ map (λ p, Secho (MsgUnsupported p))
                              (List.filter (λ p, negb (eligible p)) l))%list
  ∧ GPS_TABLE r.2 = GPS_TABLE w
  ∧ OVERWRITE r.2 = OVERWRITE w.
Proof.
  induction l as [|p l IH]; intros w; simpl.
  - rewrite !app_nil_r. repeat split; try done; lia.
  - unfold bind at 1 2 3 4 5 6. rewrite process_file_eligible.
    destruct (eligible p); simpl;
      match goal with |- context [for_each l process_file ?w1] =>
        destruct (IH w1) as (Hok & Hq & Hu & Htr & Ht & Ho) end;
      simpl in *; rewrite Hq, Hu, Htr, <- ?app_assoc; repeat split; try done; lia.
Qed.

Lemma loop_file_run photos_path w :
  let r := loop_file photos_path w in
  r.1 = Ok tt
  ∧ PHOTO_QUEUE r.2 = (PHOTO_QUEUE w ++ List.filter eligible (candidates photos_path))%list
  ∧ unfinished_tasks r.2
    = (unfinished_tasks w + length (List.filter eligible (candidates photos_path)))%nat
  ∧ trace r.2
    = (trace w ++ map (λ p, Secho (MsgUnsupported p))
                    (List.filter (λ p, negb (eligible p)) (candidates photos_path)))%list
  ∧ GPS_TABLE r.2 = GPS_TABLE w
  ∧ OVERWRITE r.2 = OVERWRITE w.
Proof.
  simpl. unfold loop_file, candidates.
  pose proof (λ l, process_files l w) as Hall. cbv zeta in Hall.
  destruct (isfile photos_path).
  - specialize (Hall [photos_path]). simpl in Hall. unfold bind in Hall.
    by destruct (process_file photos_path w) as [[[]|?|] ?].
  - destruct (isdir photos_path); [apply Hall|apply (Hall [])].
Qed.

(** X12: [loop_file] looks at the path itself when it is a file, at the
    files of the walk when it is a directory, and at nothing otherwise; it
    queues the eligible ones in that order, counts one unfinished task for
    each, prints one "unsupported" line for each of the others, and
    returns. *)
Theorem loop_file_spec photos_path w :
  let r := loop_file photos_path w in
  r.1 = Ok tt
  ∧ PHOTO_QUEUE r.2 = (PHOTO_QUEUE w ++ List.filter eligible (candidates photos_path))%list
  ∧ unfinished_tasks r.2
    = (unfinished_tasks w + length (List.filter eligible (candidates photos_path)))%nat
  ∧ events_since w r.2
    = map (λ p, Secho (MsgUnsupported p))
          (List.filter (λ p, negb (eligible p)) (candidates photos_path))
  ∧ GPS_TABLE r.2 = GPS_TABLE w
  ∧ OVERWRITE r.2 = OVERWRITE w.
Proof.
  destruct (loop_file_run photos_path w) as (Hok & Hq & Hu & Htr & Ht & Ho).
  repeat split; try done. by apply events_since_app.
Qed.

End Classifier.

(** ** Harvest mode from the command line *)

Section MainHarvest.
Context `{Platform}.

(** A worker that finds the queue empty returns at once. *)
Lemma run_threads_idle k job w :
  PHOTO_QUEUE w = [] → run_threads k (worker job) w = (Ok tt, w).
Proof.
  intros Hq. induction k as [|k IH]; simpl; [done|].
  assert (thread (worker job) w = (Ok tt, w)) as Ht.
  { unfold thread, try_except, worker. rewrite Hq. simpl. unfold bind.
    by rewrite (worker_round_empty _ _ Hq). }
  by rewrite (bind_ok _ _ _ _ _ Ht).
Qed.

Lemma write_rows_calls gps_csv_path (l : list row) :
  set_tags_calls (map (WriteRow gps_csv_path) l) = []
  ∧ rg_search_calls (map (WriteRow gps_csv_path) l) = [].
Proof. by induction l. Qed.

(** X13: in harvest mode with at least one thread and an output file that
    can be opened, [main] returns with the queue empty and no task
    unfinished.  The rows handed to the CSV writer are the table, no two of
    them are equal, each is the tuple of an eligible photo with a truthy
    timestamp, latitude and longitude, and every such tuple is written or
    equal to a written row.  Neither [set_tags] nor the geocoder is
    called: harvesting does not touch the photos. *)
Theorem main_harvest arg1 arg2 overwrite threads :
  endswith (str_lower arg1) ".csv" = false →
  endswith (str_lower arg2) ".csv" = true →
  0 < threads →
  open_append arg2 = true →
  let run := main arg1 arg2 overwrite threads initial_world in
  let photos := List.filter eligible (candidates arg1) in
  let out := rows_written arg2 (trace run.2) in
  run.1 = Ok tt
  ∧ PHOTO_QUEUE run.2 = [] ∧ unfinished_tasks run.2 = 0%nat
  ∧ GPS_TABLE run.2 = TSet out
  ∧ distinct out
  ∧ (∀ r, r ∈ out → ∃ p, p ∈ photos ∧ harvest_row p = Some r)
  ∧ (∀ p r, p ∈ photos → harvest_row p = Some r →
       r ∈ out ∨ ∃ y, y ∈ out ∧ row_eqb y r = true)
  ∧ set_tags_calls (trace run.2) = []
  ∧ rg_search_calls (trace run.2) = [].
Proof.
  intros Harg1 Harg2 Hthreads Hopen. cbv zeta. unfold main. rewrite Harg1, Harg2.
  set (photos := List.filter eligible (candidates arg1)).
  (* the classifier *)
  pose proof (loop_file_run arg1 initial_world) as Hloop. cbv zeta in Hloop.
  destruct (loop_file arg1 initial_world) as [o1 w1] eqn:E1.
  cbn [fst snd] in Hloop. fold photos in Hloop. simpl app in Hloop.
  destruct Hloop as (-> & Hq1 & Hu1 & Hev1 & Ht1 & Ho1).
  rewrite (bind_ok _ _ _ _ _ E1).
  (* the first thread empties the queue, the others find it empty *)
  assert (length (PHOTO_QUEUE w1) ≤ unfinished_tasks w1)%nat as Hle
    by (rewrite Hq1, Hu1; simpl; lia).
  pose proof (read_worker_loop (PHOTO_QUEUE w1) w1 [] eq_refl Ht1 Hle) as Hw.
  cbv zeta in Hw. fold (worker read_job w1) in Hw. fold read_worker in Hw.
  destruct (read_worker w1) as [o2 w2] eqn:E2. cbn [fst snd] in Hw.
  destruct Hw as (-> & Hq2 & Hu2 & Ht2 & Ho2 & Htr2).
  pose proof (read_outputs_console (PHOTO_QUEUE w1)) as Hcon.
  assert (run_threads (Z.to_nat threads) read_worker w1 = (Ok tt, w2)) as Erun.
  { destruct (Z.to_nat threads) as [|k] eqn:Hk; [lia|]. simpl.
    assert (thread read_worker w1 = (Ok tt, w2)) as Et
      by (unfold thread, try_except; by rewrite E2).
    rewrite (bind_ok _ _ _ _ _ Et). apply (run_threads_idle k read_job w2 Hq2). }
  rewrite (bind_ok _ _ _ _ _ Erun).
  assert (unfinished_tasks w2 = 0%nat) as Hu0 by (rewrite Hu2, Hq1, Hu1; simpl; lia).
  assert (queue_join w2 = (Ok tt, w2)) as Hjoin
    by (unfold queue_join; by rewrite Hu0).
  rewrite (bind_ok _ _ _ _ _ Hjoin).
  rewrite (write_gps_csv_spec arg2 w2 Hopen). cbn [fst snd GPS_TABLE PHOTO_QUEUE
    unfinished_tasks trace]. rewrite Ht2. cbn [rows_of app]. rewrite Hq1. cbn [app].
  (* the trace *)
  set (L := omap harvest_row photos).
  set (out := set_iter (set_members L)).
  assert (trace w1 = map (λ p, Secho (MsgUnsupported p))
                       (List.filter (λ p, negb (eligible p)) (candidates arg1))) as Htr1'
    by exact Hev1.
  assert (Forall console (trace w2)) as Hcon2.
  { rewrite Htr2. apply Forall_app. split; [|done]. rewrite Htr1'.
    apply Forall_forall. by intros e (p & -> & _)%list_elem_of_fmap. }
  destruct (console_only_calls _ Hcon2) as (Hst & Hrg & Hrw).
  destruct (write_rows_calls arg2 out) as [Hst' Hrg'].
  unfold rows_written, set_tags_calls, rg_search_calls in *.
  rewrite !omap_app, Hst, Hrg, Hrw, Hst', Hrg'. simpl.
  fold (rows_written arg2 (map (WriteRow arg2) out)). rewrite rows_written_map.
  (* the set *)
  destruct (set_members_spec L) as (Hd & Hsub & Hcov).
  assert (∀ r, r ∈ out ↔ r ∈ set_members L) as Hmem.
  { intros r. unfold out. by rewrite set_iter_perm. }
  repeat split; try done.
  - eapply distinct_perm; [|exact Hd]. symmetry. apply set_iter_perm.
  - intros r Hr. apply Hmem, Hsub in Hr. by apply list_elem_of_omap in Hr.
  - intros p r Hp Hr. assert (r ∈ L) as HrL by (apply list_elem_of_omap; eauto).
    destruct (Hcov r HrL) as [Hin|(y & Hy & Hyr)].
    + left. by apply Hmem.
    + right. exists y. split; [by apply Hmem|done].
Qed.

End MainHarvest.

(** ** Inject mode from the command line *)

Section Quiet.
Context `{Platform}.
Variable I : world → Prop.
Hypothesis I_secho : ∀ m w, I w → I (add_event (Secho m) w).
Hypothesis I_table : ∀ t w, I w → I (set_GPS_TABLE t w).

(** [load_gps_csv] keeps what console lines and changes of the table
    keep. *)
Lemma load_gps_csv_quiet gps_csv_path : preserves I (load_gps_csv gps_csv_path).
Proof.
  apply preserves_bind; [apply preserves_of_option|]. intros reader.
  apply preserves_bind; [|intros _ w Hw; by apply I_table].
  apply preserves_for_each. intros cells.
  apply preserves_try_except; [|intros e w Hw; by apply I_secho].
  apply preserves_bind; [|intros _].
  { intros w Hw. unfold GPS_TABLE_append_lookup. by destruct (GPS_TABLE w). }
  repeat (apply preserves_bind; [apply preserves_of_option|]; intros ?).
  intros w Hw. unfold GPS_TABLE_append. destruct (GPS_TABLE w); [|done].
  by apply I_table.
Qed.

End Quiet.

Section MainInject.
Context `{Platform}.

Lemma idle_console_load gps_csv_path :
  idle_console (load_gps_csv gps_csv_path initial_world).2.
Proof.
  apply (load_gps_csv_quiet idle_console).
  - intros m w (Hq & Hu & Hc). repeat split; try done. simpl.
    apply Forall_app. split; [done|]. by apply Forall_singleton.
  - by intros t w (Hq & Hu & Hc).
  - repeat split. apply Forall_nil_2.
Qed.

(** X14: without a thread ([--threads] zero or negative) and with at
    least one eligible photo, [main] never returns from
    [PHOTO_QUEUE.join()], in inject mode (once the table is loaded) as in
    harvest mode; no photo has been processed: [set_tags] was not called and
    no row was handed to the CSV writer. *)
Theorem main_without_threads arg1 arg2 overwrite threads :
  threads ≤ 0 →
  (endswith (str_lower arg1) ".csv" = true ∧ is_Some (csv_reader arg1)
   ∧ List.filter eligible (candidates arg2) ≠ [])
  ∨ (endswith (str_lower arg1) ".csv" = false ∧ endswith (str_lower arg2) ".csv" = true
     ∧ List.filter eligible (candidates arg1) ≠ []) →
  let run := main arg1 arg2 overwrite threads initial_world in
  run.1 = Hang
  ∧ set_tags_calls (trace run.2) = []
  ∧ ∀ gps_csv_path, rows_written gps_csv_path (trace run.2) = [].
Proof.
  intros Hthreads Hmode. cbv zeta. unfold main.
  replace (Z.to_nat threads) with 0%nat by lia. simpl run_threads.
  assert (∀ photos_path w0,
            idle_console w0 → List.filter eligible (candidates photos_path) ≠ [] →
            ∀ k : M unit,
            let r := (loop_file photos_path ;;; ret tt ;;; queue_join ;;; k) w0 in
            r.1 = Hang ∧ set_tags_calls (trace r.2) = []
            ∧ ∀ g, rows_written g (trace r.2) = []) as Hstuck.
  { intros photos_path w0 (Hq0 & Hu0 & Hc0) Hsome k. cbv zeta.
    pose proof (loop_file_run photos_path w0) as Hloop. cbv zeta in Hloop.
    destruct (loop_file photos_path w0) as [o1 w1] eqn:E1. cbn [fst snd] in Hloop.
    destruct Hloop as (-> & Hq1 & Hu1 & Hev1 & _).
    rewrite (bind_ok _ _ _ _ _ E1). unfold bind, ret, queue_join.
    rewrite Hu1, Hu0.
    destruct (List.filter eligible (candidates photos_path)) as [|p ps]; [done|].
    simpl. split; [done|].
    assert (Forall console (trace w1)) as Hc1.
    { rewrite Hev1. apply Forall_app. split; [done|].
      apply Forall_forall. by intros e (q & -> & _)%list_elem_of_fmap. }
    by destruct (console_only_calls _ Hc1) as (? & _ & ?). }
  destruct Hmode as [(Harg1 & [reader Hr] & Hsome)|(Harg1 & Harg2 & Hsome)].
  - rewrite Harg1.
    destruct (load_gps_csv_initial arg1 reader Hr) as [Hok _].
    pose proof (idle_console_load arg1) as Hidle.
    destruct (load_gps_csv arg1 initial_world) as [o0 w0] eqn:E0. simpl in Hok, Hidle.
    subst o0. rewrite (bind_ok _ _ _ _ _ E0).
    destruct (Hstuck arg2 w0 Hidle Hsome (ret tt)) as (Hh & Hs & Hr').
    revert Hh Hs Hr'. unfold bind, ret.
    destruct (loop_file arg2 w0) as [[[]|?|] w1]; simpl; try done.
    destruct (queue_join w1) as [[[]|?|] w2]; simpl; done.
  - rewrite Harg1, Harg2.
    apply (Hstuck arg1 initial_world); [|done].
    repeat split. apply Forall_nil_2.
Qed.

Lemma paths_ok_add ok e w :
  (∀ p t ps, e ≠ SetTags p t ps) → paths_ok ok w → paths_ok ok (add_event e w).
Proof.
  intros He [Hq Hc]. split; [done|]. intros c. simpl.
  unfold set_tags_calls. rewrite omap_app, elem_of_app.
  intros [Hin|Hin]; [by apply Hc|].
  destruct e; simpl in Hin; try by apply elem_of_nil in Hin.
  by destruct (He photo_path tags params).
Qed.

(** A round of the write worker hands to [set_tags] at most the path it
    took from the queue. *)
Lemma paths_ok_round ok : preserves (paths_ok ok) (worker_round write_photo_gps).
Proof.
  intros w [Hq Hc].
  unfold worker_round, try_except, try_finally, bind, queue_get, task_done, ret, raise.
  destruct (PHOTO_QUEUE w) as [|p q] eqn:Eq; [simpl; split; [by rewrite Eq|done]|].
  set (w1 := set_PHOTO_QUEUE q (unfinished_tasks w) w).
  assert (paths_ok ok (write_photo_gps p w1).2) as [Hq2 Hc2].
  { destruct (write_photo_gps_only_events p w1) as [[evs Hev] _].
    pose proof (write_photo_gps_calls p w1) as Hcalls. cbv zeta in Hcalls.
    rewrite Hev in *. erewrite events_since_app in Hcalls by reflexivity.
    split; simpl.
    - intros p' Hp'. apply Hq. by right.
    - intros c. unfold set_tags_calls in *. rewrite omap_app, elem_of_app.
      intros [Hin|Hin]; [by apply Hc|].
      destruct Hcalls as [Hno|(? & ? & ? & ? & ? & _ & _ & Hcall)].
      + rewrite Hno in Hin. by apply elem_of_nil in Hin.
      + rewrite Hcall in Hin. apply list_elem_of_singleton in Hin. subst c.
        apply Hq. by left. }
  destruct (write_photo_gps p w1) as [[[]|e|] w2]; simpl in *.
  - destruct (unfinished_tasks w2); simpl; done.
  - destruct (unfinished_tasks w2); simpl; [by destruct e|]. by destruct e.
  - done.
Qed.

Lemma paths_ok_write_worker ok : preserves (paths_ok ok) write_worker.
Proof.
  assert (∀ fuel, preserves (paths_ok ok) (worker_loop write_photo_gps fuel)) as Hloop;
    [|intros w; apply Hloop].
  induction fuel as [|fuel IH]; [by intros w Hw|]. simpl.
  apply preserves_bind; [apply paths_ok_round|].
  intros []; [exact IH|apply preserves_ret].
Qed.

(** X15: in inject mode every file handed to [set_tags] is one of the
    files [loop_file] looked at under the photo path and passed the test of
    [process_file]: a thumbnail, a file with another extension or a file from
    elsewhere is never written. *)
Theorem main_inject_paths arg1 arg2 overwrite threads :
  endswith (str_lower arg1) ".csv" = true →
  ∀ c, c ∈ set_tags_calls (trace (main arg1 arg2 overwrite threads initial_world).2) →
       c.1.1 ∈ candidates arg2 ∧ eligible c.1.1 = true.
Proof.
  intros Harg1.
  set (ok := λ p : string, p ∈ candidates arg2 ∧ eligible p = true).
  assert (paths_ok ok (main arg1 arg2 overwrite threads initial_world).2) as [_ Hc];
    [|exact Hc].
  assert (preserves (paths_ok ok) (main arg1 arg2 overwrite threads)) as Hmain.
  { unfold main. rewrite Harg1.
    apply preserves_bind.
    { apply load_gps_csv_quiet; [|done]. intros m w Hw. by apply paths_ok_add. }
    intros _. apply preserves_bind.
    { intros w [Hq Hc].
      destruct (loop_file_run arg2 w) as (_ & Hq1 & _ & Htr1 & _).
      split.
      - intros p. rewrite Hq1, elem_of_app.
        intros [Hp|Hp]; [by apply Hq|].
        apply list_elem_of_In, filter_In in Hp as [Hp Hel].
        split; [by apply list_elem_of_In|done].
      - intros c. rewrite Htr1. unfold set_tags_calls. rewrite omap_app, elem_of_app.
        intros [Hin|Hin]; [by apply Hc|].
        assert (set_tags_calls (map (λ p, Secho (MsgUnsupported p))
                  (List.filter (λ p, negb (eligible p)) (candidates arg2))) = []) as Hno.
        { apply console_only_calls, Forall_forall.
          by intros e (q & -> & _)%list_elem_of_fmap. }
        unfold set_tags_calls in Hno. rewrite Hno in Hin. by apply elem_of_nil in Hin. }
    intros _. apply preserves_bind.
    { generalize (Z.to_nat threads). intros n.
      induction n as [|n IH]; simpl; [apply preserves_ret|].
      apply preserves_bind; [|done].
      apply preserves_try_except; [apply paths_ok_write_worker|].
      intros e w Hw. by apply paths_ok_add. }
    intros _ w Hw. unfold queue_join. by destruct (unfinished_tasks w). }
  apply Hmain. split; intros x Hx; by apply elem_of_nil in Hx.
Qed.

End MainInject.

(** ** Loading and persisting, in general *)

Section CsvMore.
Context `{Platform}.

(** One round of the loop of [load_gps_csv].  On a list table a row that
    gives a tuple adds it to the list and any other row costs one console
    line; on a set table the lookup of [append] fails before the row is
    looked at, and every row costs the line of that [AttributeError]. *)
Lemma load_row_run cells w :
  let body :=
    try_except
      (GPS_TABLE_append_lookup ;;;
       let* c0 := index cells 0 in
       let* t := of_option ValueError (float_of_str c0) in
       let* c1 := index cells 1 in
       let* c2 := index cells 2 in
       let* c3 := index cells 3 in
       GPS_TABLE_append (t, PStr c1, PStr c2, PStr c3))
      (λ e, secho (MsgCsvError e)) in
  match GPS_TABLE w with
  | TSet _ => body w = (Ok tt, add_event (Secho (MsgCsvError AttributeError)) w)
  | TList l =>
      match parsed_row cells with
      | Some r => body w = (Ok tt, set_GPS_TABLE (TList (l ++ [r])) w)
      | None => ∃ e, body w = (Ok tt, add_event (Secho (MsgCsvError e)) w)
      end
  end.
Proof.
  unfold parsed_row.
  cbv [try_except bind index of_option ret raise secho emit GPS_TABLE_append
       GPS_TABLE_append_lookup].
  destruct (GPS_TABLE w) as [l|l] eqn:Hl; [|done].
  destruct cells as [|c0 cells]; simpl; [eauto|].
  destruct (float_of_str c0) as [t|]; simpl.
  2:{ destruct cells as [|? [|? [|? ?]]]; simpl; eauto. }
  destruct cells as [|c1 [|c2 [|c3 cells]]]; simpl; eauto.
  by rewrite Hl.
Qed.

Lemma load_rows_list reader : ∀ w l,
  GPS_TABLE w = TList l →
  ∃ evs,
    for_each reader (λ row,
      try_except
        (GPS_TABLE_append_lookup ;;;
         let* c0 := index row 0 in
         let* t := of_option ValueError (float_of_str c0) in
         let* c1 := index row 1 in
         let* c2 := index row 2 in
         let* c3 := index row 3 in
         GPS_TABLE_append (t, PStr c1, PStr c2, PStr c3))
        (λ e, secho (MsgCsvError e))) w
    = (Ok tt, mkWorld (TList (l ++ omap parsed_row reader)) (PHOTO_QUEUE w)
                (unfinished_tasks w) (OVERWRITE w) (trace w ++ evs))
    ∧ Forall (λ e, ∃ x, e = Secho (MsgCsvError x)) evs
    ∧ length evs = length (List.filter (λ cells, bool_decide (parsed_row cells = None)) reader).
Proof.
  induction reader as [|cells reader IH]; intros w l Hl.
  - exists []. simpl. rewrite !app_nil_r. unfold ret. rewrite <- Hl. by destruct w.
  - pose proof (load_row_run cells w) as Hrow. cbv zeta in Hrow. rewrite Hl in Hrow.
    cbn [for_each]. destruct (parsed_row cells) as [r|] eqn:Hp.
    + rewrite (bind_ok _ _ _ _ _ Hrow).
      destruct (IH (set_GPS_TABLE (TList (l ++ [r])) w) (l ++ [r])%list eq_refl)
        as (evs & -> & Hevs & Hlen).
      exists evs. simpl. rewrite Hp. rewrite <- app_assoc. simpl.
      done.
    + destruct Hrow as [e Hrow]. rewrite (bind_ok _ _ _ _ _ Hrow).
      destruct (IH (add_event (Secho (MsgCsvError e)) w) l Hl)
        as (evs & -> & Hevs & Hlen).
      exists (Secho (MsgCsvError e) :: evs). simpl. rewrite Hp, <- app_assoc. simpl.
      repeat split; [|by rewrite Hlen]. apply Forall_cons. eauto.
Qed.

Lemma load_rows_set reader : ∀ w l,
  GPS_TABLE w = TSet l →
  for_each reader (λ row,
    try_except
      (GPS_TABLE_append_lookup ;;;
       let* c0 := index row 0 in
       let* t := of_option ValueError (float_of_str c0) in
       let* c1 := index row 1 in
       let* c2 := index row 2 in
       let* c3 := index row 3 in
       GPS_TABLE_append (t, PStr c1, PStr c2, PStr c3))
      (λ e, secho (MsgCsvError e))) w
  = (Ok tt, mkWorld (TSet l) (PHOTO_QUEUE w) (unfinished_tasks w) (OVERWRITE w)
              (trace w ++ map (λ _, Secho (MsgCsvError AttributeError)) reader)).
Proof.
  induction reader as [|cells reader IH]; intros w l Hl.
  - simpl. rewrite !app_nil_r. unfold ret. rewrite <- Hl. by destruct w.
  - pose proof (load_row_run cells w) as Hrow. cbv zeta in Hrow. rewrite Hl in Hrow.
    cbn [for_each]. rewrite (bind_ok _ _ _ _ _ Hrow).
    rewrite (IH (add_event (Secho (MsgCsvError AttributeError)) w) l Hl).
    simpl. by rewrite <- app_assoc.
Qed.

(** X16: [load_gps_csv] on a list table.  A file that cannot be opened
    gives [OSError] and leaves the module as it was.  When the file opens and
    the reader yields its rows to the end of the file, the call returns
    whatever the cells of these rows hold: the table becomes the set of the
    tuples already there and of the rows with at least four cells whose first
    cell converts to a float (cells after the fourth are ignored), every
    other row costs one console line and nothing else, and the queue, its
    counter and [OVERWRITE] are untouched. *)
Theorem load_gps_csv_rows gps_csv_path w l :
  GPS_TABLE w = TList l →
  let r := load_gps_csv gps_csv_path w in
  match csv_reader gps_csv_path with
  | None => r = (Raise OSError, w)
  | Some reader =>
      r.1 = Ok tt
      ∧ GPS_TABLE r.2 = TSet (set_iter (set_members (l ++ omap parsed_row reader)))
      ∧ PHOTO_QUEUE r.2 = PHOTO_QUEUE w
      ∧ unfinished_tasks r.2 = unfinished_tasks w
      ∧ OVERWRITE r.2 = OVERWRITE w
      ∧ Forall (λ e, ∃ x, e = Secho (MsgCsvError x)) (events_since w r.2)
      ∧ length (events_since w r.2)
        = length (List.filter (λ cells, bool_decide (parsed_row cells = None)) reader)
  end.
Proof.
  intros Hl. cbv zeta. unfold load_gps_csv.
  destruct (csv_reader gps_csv_path) as [reader|]; [|done].
  rewrite (bind_ok _ _ w reader w eq_refl).
  destruct (load_rows_list reader w l Hl) as (evs & Hrun & Hevs & Hlen).
  rewrite (bind_ok _ _ _ _ _ Hrun). simpl.
  erewrite events_since_app by reflexivity. done.
Qed.

(** X17: once the table is a set, [load_gps_csv] adds nothing to it.
    Python looks [GPS_TABLE.append] up before it evaluates the argument, a
    set has no [append], and so every row of the file, whatever it holds,
    costs the console line of that [AttributeError] and nothing else; the
    call returns, and the table is again the set of its members. *)
Theorem load_gps_csv_on_set gps_csv_path reader w l :
  GPS_TABLE w = TSet l →
  csv_reader gps_csv_path = Some reader →
  let r := load_gps_csv gps_csv_path w in
  r.1 = Ok tt
  ∧ GPS_TABLE r.2 = TSet (set_iter (set_members l))
  ∧ (distinct l → rows_of (GPS_TABLE r.2) ≡ₚ l)
  ∧ events_since w r.2 = map (λ _, Secho (MsgCsvError AttributeError)) reader
  ∧ PHOTO_QUEUE r.2 = PHOTO_QUEUE w
  ∧ unfinished_tasks r.2 = unfinished_tasks w
  ∧ OVERWRITE r.2 = OVERWRITE w.
Proof.
  intros Hl Hr. cbv zeta. unfold load_gps_csv. rewrite Hr.
  rewrite (bind_ok _ _ w reader w eq_refl).
  rewrite (bind_ok _ _ _ _ _ (load_rows_set reader w l Hl)). simpl.
  erewrite events_since_app by reflexivity. repeat split; try done.
  intros Hd. unfold set_members. rewrite (set_members_distinct l [] Hd).
  apply set_iter_perm.
Qed.

(** X18: [write_gps_csv] first turns the table into a set.  When the file
    cannot be opened it raises [OSError] with the table already replaced and
    no row written.  Otherwise it returns, the rows handed to the writer are
    the table and nothing else is added to the trace; no two written rows are
    equal, each was in the table before, and each row that was in the table
    is written or equal to a written row. *)
Theorem write_gps_csv_rows gps_csv_path w :
  let r := write_gps_csv gps_csv_path w in
  let out := rows_written gps_csv_path (events_since w r.2) in
  GPS_TABLE r.2 = TSet (set_iter (set_members (rows_of (GPS_TABLE w))))
  ∧ if open_append gps_csv_path then
      r.1 = Ok tt
      ∧ events_since w r.2 = map (WriteRow gps_csv_path) out
      ∧ GPS_TABLE r.2 = TSet out
      ∧ distinct out
      ∧ (∀ x, x ∈ out → x ∈ rows_of (GPS_TABLE w))
      ∧ (∀ x, x ∈ rows_of (GPS_TABLE w) →
           x ∈ out ∨ ∃ y, y ∈ out ∧ row_eqb y x = true)
    else
      r.1 = Raise OSError ∧ events_since w r.2 = [].
Proof.
  cbv zeta. destruct (open_append gps_csv_path) eqn:Hopen.
  - rewrite (write_gps_csv_spec gps_csv_path w Hopen). simpl.
    erewrite events_since_app by reflexivity. rewrite rows_written_map.
    set (L := rows_of (GPS_TABLE w)).
    destruct (set_members_spec L) as (Hd & Hsub & Hcov).
    assert (∀ x, x ∈ set_iter (set_members L) ↔ x ∈ set_members L) as Hmem.
    { intros x. by rewrite set_iter_perm. }
    repeat split; try done.
    + eapply distinct_perm; [|exact Hd]. symmetry. apply set_iter_perm.
    + intros x Hx. by apply Hsub, Hmem.
    + intros x Hx. destruct (Hcov x Hx) as [Hin|(y & Hy & Hyx)].
      * left. by apply Hmem.
      * right. exists y. split; [by apply Hmem|done].
  - unfold write_gps_csv. rewrite Hopen. cbv [bind ret raise py_set]. simpl.
    split; [done|]. split; [done|]. unfold events_since. simpl.
    by rewrite drop_all.
Qed.

End CsvMore.

(** ** Reading a photo *)

Section ReadPhoto.
Context `{Platform}.

(** X19: [read_photo_gps] never raises and changes nothing but the
    console.  When exiftool yields the metadata and "EXIF:DateTimeOriginal"
    is a string in the date format, it prints one line and returns the tuple
    of the timestamp of that date and the three GPS tags, with the empty
    string for each tag that is missing: a photo without GPS tags is read.
    In every other case it prints two lines, the failure line of
    [click.secho] and the exception through [print], and returns the empty
    tuple: a photo without a date is not read, whatever its GPS tags. *)
Theorem read_photo_gps_spec p w :
  (∃ r meta s,
     read_photo_gps p w
     = (Ok (Some r), add_event (Secho (MsgExif p (row0 r) (row1 r) (row2 r))) w)
     ∧ get_metadata p = Some meta
     ∧ meta !! "EXIF:DateTimeOriginal" = Some (PStr s)
     ∧ strptime_timestamp s = Some (row0 r)
     ∧ row1 r = default (PStr "") (meta !! "EXIF:GPSLatitude")
     ∧ row2 r = default (PStr "") (meta !! "EXIF:GPSLongitude")
     ∧ row3 r = default (PStr "") (meta !! "EXIF:GPSAltitude"))
  ∨ (∃ e,
       read_photo_gps p w
       = (Ok None, add_event (Print e) (add_event (Secho (MsgExifFailed p)) w))
       ∧ ¬ ∃ meta s, get_metadata p = Some meta
                     ∧ meta !! "EXIF:DateTimeOriginal" = Some (PStr s)
                     ∧ is_Some (strptime_timestamp s)).
Proof.
  unfold read_photo_gps, try_except, bind, of_option, secho, emit, ret, raise.
  destruct (get_metadata p) as [meta|] eqn:Hm; simpl.
  2:{ right. eexists. split; [done|]. by intros (? & ? & ? & _). }
  destruct (meta !! "EXIF:DateTimeOriginal") as [[s| |]|] eqn:Hd; simpl;
    try (right; eexists; split; [done|]; intros (? & ? & ? & ? & _); congruence).
  destruct (strptime_timestamp s) as [t|] eqn:Ht; simpl.
  - left. eexists (_, _, _, _), meta, s. done.
  - right. eexists. split; [done|]. intros (? & ? & ? & ? & [? ?]). congruence.
Qed.

End ReadPhoto.

(** ** Inject mode with an empty table *)

Section EmptyTable.
Context `{Platform}.

Lemma write_photo_gps_empty_run p w :
  rows_of (GPS_TABLE w) = [] →
  write_photo_gps p w
  = (Ok tt, mkWorld (GPS_TABLE w) (PHOTO_QUEUE w) (unfinished_tasks w) (OVERWRITE w)
              (trace w ++ read_output p)).
Proof.
  intros Hempty. rewrite <- read_photo_gps_world.
  pose proof (write_photo_gps_paths p w) as Hp. cbv zeta in Hp.
  destruct Hp as [[Hrun _]|(t & lat & lon & alt & d & ts & glat & glon & galt
                           & _ & _ & Hnear & _)]; [done|].
  destruct (get_closest_gps_row_some _ _ _ _ Hnear) as (Hr & _).
  rewrite Hempty in Hr. by apply elem_of_nil in Hr.
Qed.

Lemma write_worker_loop_empty q : ∀ w,
  PHOTO_QUEUE w = q → rows_of (GPS_TABLE w) = [] →
  (length q ≤ unfinished_tasks w)%nat →
  worker_loop write_photo_gps (S (length q)) w
  = (Ok tt, mkWorld (GPS_TABLE w) [] (unfinished_tasks w - length q)
              (OVERWRITE w) (trace w ++ flat_map read_output q)).
Proof.
  induction q as [|p q IH]; intros w Hq Hempty Hn.
  - simpl. unfold bind. rewrite (worker_round_empty _ _ Hq). simpl.
    unfold ret. rewrite app_nil_r, Nat.sub_0_r, <- Hq. by destruct w.
  - simpl in Hn. destruct (unfinished_tasks w) as [|n] eqn:Hu; [lia|].
    change (worker_loop write_photo_gps (S (length (p :: q))) w)
      with ((let* again := worker_round write_photo_gps in
             if again then worker_loop write_photo_gps (S (length q)) else ret tt) w).
    pose proof (write_photo_gps_empty_run p (set_PHOTO_QUEUE q (S n) w) Hempty) as Hjob.
    assert (worker_round write_photo_gps w
            = (Ok true, mkWorld (GPS_TABLE w) q n (OVERWRITE w)
                          (trace w ++ read_output p))) as Hround.
    { unfold worker_round, try_except, try_finally, bind, queue_get, task_done, ret.
      rewrite Hq, Hu, Hjob. done. }
    rewrite (bind_ok _ _ _ _ _ Hround). cbv beta iota.
    set (w1 := mkWorld _ q n _ _).
    rewrite (IH w1 eq_refl Hempty); [|simpl; lia].
    simpl. by rewrite <- app_assoc.
Qed.

(** X20: in inject mode with at least one thread, when the CSV file opens
    but none of its rows gives a tuple (an empty file, or a header only),
    [main] returns: every eligible photo has been taken off the queue and
    marked done, and neither [set_tags] nor the geocoder has been called. *)
Theorem main_inject_empty_table arg1 arg2 overwrite threads reader :
  endswith (str_lower arg1) ".csv" = true →
  csv_reader arg1 = Some reader →
  omap parsed_row reader = [] →
  0 < threads →
  let run := main arg1 arg2 overwrite threads initial_world in
  run.1 = Ok tt
  ∧ PHOTO_QUEUE run.2 = [] ∧ unfinished_tasks run.2 = 0%nat
  ∧ rows_of (GPS_TABLE run.2) = []
  ∧ set_tags_calls (trace run.2) = []
  ∧ rg_search_calls (trace run.2) = [].
Proof.
  intros Harg1 Hreader Hnone Hthreads. cbv zeta. unfold main. rewrite Harg1.
  (* the load *)
  destruct (load_gps_csv_initial arg1 reader Hreader) as [Hok0 Ht0].
  pose proof (idle_console_load arg1) as (Hq0 & Hu0 & Hc0).
  destruct (load_gps_csv arg1 initial_world) as [o0 w0] eqn:E0.
  cbn [fst snd] in *. subst o0. rewrite (bind_ok _ _ _ _ _ E0).
  rewrite Hnone in Ht0. change (set_members []) with (@nil row) in Ht0.
  rewrite set_iter_nil in Ht0.
  (* the classifier *)
  pose proof (loop_file_run arg2 w0) as Hloop. cbv zeta in Hloop.
  destruct (loop_file arg2 w0) as [o1 w1] eqn:E1. cbn [fst snd] in Hloop.
  destruct Hloop as (-> & Hq1 & Hu1 & Htr1 & Ht1 & _).
  rewrite (bind_ok _ _ _ _ _ E1). rewrite Hq0, Hu0 in *. simpl in Hq1, Hu1.
  (* the workers *)
  assert (rows_of (GPS_TABLE w1) = []) as Hempty by by rewrite Ht1, Ht0.
  assert (length (PHOTO_QUEUE w1) ≤ unfinished_tasks w1)%nat as Hle
    by (rewrite Hq1, Hu1; lia).
  pose proof (write_worker_loop_empty (PHOTO_QUEUE w1) w1 eq_refl Hempty Hle) as Hrun.
  pose proof (read_outputs_console (PHOTO_QUEUE w1)) as Hcon.
  set (evs := flat_map read_output (PHOTO_QUEUE w1)) in *.
  fold (worker write_photo_gps w1) in Hrun. fold write_worker in Hrun.
  set (w2 := mkWorld _ _ _ _ _) in Hrun.
  assert (run_threads (Z.to_nat threads) write_worker w1 = (Ok tt, w2)) as Erun.
  { destruct (Z.to_nat threads) as [|k] eqn:Hk; [lia|]. simpl.
    assert (thread write_worker w1 = (Ok tt, w2)) as Et
      by (unfold thread, try_except; by rewrite Hrun).
    rewrite (bind_ok _ _ _ _ _ Et). by apply (run_threads_idle k write_photo_gps w2). }
  rewrite (bind_ok _ _ _ _ _ Erun).
  assert (unfinished_tasks w2 = 0%nat) as Hu2 by (simpl; rewrite Hq1, Hu1; lia).
  unfold queue_join. rewrite Hu2. simpl.
  assert (Forall console (trace w1 ++ evs)) as Hc2.
  { apply Forall_app. split; [|done]. rewrite Htr1. apply Forall_app. split; [done|].
    apply Forall_forall. by intros e (q & -> & _)%list_elem_of_fmap. }
  destruct (console_only_calls _ Hc2) as (Hst & Hrg & _).
  repeat split; done.
Qed.

End EmptyTable.

(** ** Files that cannot be opened *)
Section Unopened.
Context `{Platform}.


(** X22: in inject mode a table file that cannot be opened ends [main] at
    once: [OSError] is raised out of [main] and nothing else has happened:
    no photo was looked at, nothing was printed, the table, the queue and
    the trace are as before. *)
Theorem main_missing_csv arg1 arg2 overwrite threads w :
  endswith (str_lower arg1) ".csv" = true →
  csv_reader arg1 = None →
  main arg1 arg2 overwrite threads w = (Raise OSError, w).
Proof.
  intros Harg1 Hcsv. unfold main. rewrite Harg1.
  unfold load_gps_csv, bind, of_option. by rewrite Hcsv.
Qed.

End Unopened.

(** ** The further properties on the concrete platforms *)

Module MoreExamples.
Import Demo.

(** Two rows 5 seconds away: the first in the order of the table wins. *)
Lemma first_of_two_ties :
  ∃ l1 l2,
    rows_of (GPS_TABLE Field.tie_table) = (l1 ++ Field.before :: l2)%list
    ∧ ∀ r', r' ∈ l1 → (time_diff 5 r' <=? 5)%float = false.
Proof.
  apply (get_closest_gps_row_first 5 Field.tie_table 5 Field.before).
  vm_compute. reflexivity.
Defined.

Lemma ties_same_difference :
  ∃ d c c',
    get_closest_gps_row 5 Field.tie_table = (Ok (d, c), Field.tie_table)
    ∧ get_closest_gps_row 5 Field.tie_table_swapped = (Ok (d, c'), Field.tie_table_swapped)
    ∧ (is_Some c ↔ is_Some c').
Proof.
  apply (get_closest_gps_row_order 5 Field.tie_table Field.tie_table_swapped).
  simpl. apply perm_swap.
Defined.

Lemma a_jpg_gets_nearest :
  set_tags_calls (events_since (loaded "gps.csv") (write_photo_gps "a.jpg" (loaded "gps.csv")).2)
  = [("a.jpg", tokyo_tags, ["-P"; ""])].
Proof.
  refine (proj1 (write_photo_gps_writes_nearest "a.jpg" (loaded "gps.csv")
                   "a.jpg" tokyo_tags ["-P"; ""] _)).
  assert (set_tags_calls
            (events_since (loaded "gps.csv") (write_photo_gps "a.jpg" (loaded "gps.csv")).2)
          = [("a.jpg", tokyo_tags, ["-P"; ""])]) as -> by (vm_compute; reflexivity).
  apply list_elem_of_here.
Defined.

Lemma nothing_loaded_nothing_written :
  let new := events_since initial_world (write_photo_gps "a.jpg" initial_world).2 in
  write_photo_gps "a.jpg" initial_world
  = (Ok tt, (read_photo_gps "a.jpg" initial_world).2)
  ∧ ((∃ t lat lon, new = [Secho (MsgExif "a.jpg" t lat lon)])
     ∨ ∃ e, new = [Secho (MsgExifFailed "a.jpg"); Print e])
  ∧ set_tags_calls new = []
  ∧ rg_search_calls new = [].
Proof.
  apply (write_photo_gps_empty_table "a.jpg" initial_world). reflexivity.
Defined.

Lemma protected_photo_not_done :
  Secho (MsgDone "shoot/1.jpg")
  ∉ events_since (loaded "gps.csv") (write_photo_gps "shoot/1.jpg" (loaded "gps.csv")).2.
Proof.
  refine (proj1 (write_photo_gps_raises "shoot/1.jpg" (loaded "gps.csv") ExifToolError _)).
  vm_compute. reflexivity.
Defined.

Lemma round_marks_task :
  let w := (queue_put "shoot/1.jpg" (loaded "gps.csv")).2 in
  PHOTO_QUEUE (worker_round write_photo_gps w).2 = []
  ∧ unfinished_tasks (worker_round write_photo_gps w).2 = 0%nat.
Proof.
  pose proof (write_worker_round "shoot/1.jpg" [] 0
                (queue_put "shoot/1.jpg" (loaded "gps.csv")).2) as Hround.
  cbv zeta in Hround |- *.
  destruct Hround as (Hq & Hu & _); [vm_compute; reflexivity..|].
  by split.
Defined.

Lemma harvest_skips_epoch :
  let w := (queue_put "trip/1.jpg" ;;; queue_put "epoch.jpg") initial_world in
  (read_worker w.2).1 = Ok tt ∧ PHOTO_QUEUE (read_worker w.2).2 = [].
Proof.
  pose proof (read_worker_harvests
                ((queue_put "trip/1.jpg" ;;; queue_put "epoch.jpg") initial_world).2 [])
    as Hrun.
  cbv zeta in Hrun |- *.
  destruct Hrun as (Hok & Hq & _); [vm_compute; reflexivity|vm_compute; lia|].
  by split.
Defined.

Lemma five_rounds_are_enough :
  worker_loop write_photo_gps 5 (loaded "gps.csv") = write_worker (loaded "gps.csv").
Proof.
  refine (proj1 (workers_end (loaded "gps.csv") 5 _)).
  vm_compute. lia.
Defined.

Lemma trip_harvest_returns :
  (main "trip" "out.csv" false 2 initial_world).1 = Ok tt.
Proof.
  refine (proj1 (main_harvest "trip" "out.csv" false 2 _ _ _ _));
    try (vm_compute; reflexivity).
Defined.

Lemma no_thread_no_return :
  (main "gps.csv" "a.jpg" false 0 initial_world).1 = Hang.
Proof.
  refine (proj1 (main_without_threads "gps.csv" "a.jpg" false 0 _ _)); [lia|].
  left. split; [vm_compute; reflexivity|]. split; [by eexists|].
  vm_compute. discriminate.
Defined.

Lemma a_jpg_was_classified :
  "a.jpg" ∈ candidates "a.jpg" ∧ eligible "a.jpg" = true.
Proof.
  refine (main_inject_paths "gps.csv" "a.jpg" true 1 _
            ("a.jpg", tokyo_tags, ["-P"; ""]) _).
  - vm_compute. reflexivity.
  - assert (set_tags_calls (trace (main "gps.csv" "a.jpg" true 1 initial_world).2)
            = [("a.jpg", tokyo_tags, ["-P"; ""])]) as -> by (vm_compute; reflexivity).
    apply list_elem_of_here.
Defined.

Lemma header_costs_one_line :
  length (events_since initial_world (load_gps_csv "gps.csv" initial_world).2) = 1%nat.
Proof.
  pose proof (load_gps_csv_rows "gps.csv" initial_world [] eq_refl) as Hload.
  change (csv_reader "gps.csv")
    with (Some [["timestamp"; "latitude"; "longitude"; "altitude"];
                ["1700000000"; "35.0"; "139.0"; "10"]]) in Hload.
  cbv zeta iota in Hload.
  destruct Hload as (_ & _ & _ & _ & _ & _ & Hlen).
  rewrite Hlen. vm_compute. reflexivity.
Defined.

Lemma second_load_adds_nothing :
  events_since (loaded "gps.csv") (load_gps_csv "gps.csv" (loaded "gps.csv")).2
  = [Secho (MsgCsvError AttributeError); Secho (MsgCsvError AttributeError)].
Proof.
  refine (proj1 (proj2 (proj2 (proj2
            (load_gps_csv_on_set "gps.csv"
               [["timestamp"; "latitude"; "longitude"; "altitude"];
                ["1700000000"; "35.0"; "139.0"; "10"]]
               (loaded "gps.csv")
               [(1700000000%float, PStr "35.0", PStr "139.0", PStr "10")] _ _)))));
    vm_compute; reflexivity.
Defined.

Lemma table_file_missing :
  main "missing.csv" "a.jpg" false 4 initial_world = (Raise OSError, initial_world).
Proof.
  apply (main_missing_csv "missing.csv" "a.jpg" false 4 initial_world);
    vm_compute; reflexivity.
Defined.

End MoreExamples.

Module FieldExamples.
Import Field.

Lemma header_only_table :
  (main "header.csv" "shoot" false 1 initial_world).1 = Ok tt.
Proof.
  refine (proj1 (main_inject_empty_table "header.csv" "shoot" false 1
                   [["timestamp"; "latitude"; "longitude"; "altitude"]] _ _ _ _));
    try (vm_compute; reflexivity).
Defined.


End FieldExamples.
